(** * differencebetween: the game session of [game/game.go]

    A shallow embedding of the Go package [game] (the card game session:
    round construction, punchline dealing, play and vote, id allocation and
    the card filter), followed by the properties of the specification proved
    or refuted on it.

    Conventions of the embedding.
    - A Go [int] is a [Z]; arithmetic that can leave the 64-bit range is
      wrapped with [wrap] as the machine does.
    - A slice is a [list]; indexing out of range is a run-time panic, which
      the model makes explicit: a function that can panic returns an
      [outcome], and [Panic] carries the state reached when the panic is
      raised (a [*Game] is mutated in place, so what was written before the
      panic stays written).
    - A Go [map] is a [gmap]; a nil map is [None].
    - [math/rand] is an oracle: an infinite sequence of raw values and a read
      position; [rand.Intn n] reduces the next raw value modulo [n].
    - A function that returns [error] returns an [option error] here
      ([None] is Go's [nil]). *)

From Stdlib Require Import ZArith Lia.
From stdpp Require Import base option list gmap strings numbers fin_maps.

Local Open Scope Z_scope.
Local Set Warnings "-clear-no-such-hyp".

(** ** Machine integers *)

Definition int_min : Z := - 2 ^ 63.
Definition int_max : Z := 2 ^ 63 - 1.

(** The value a 64-bit two's complement register holds for [z]. *)
Definition wrap (z : Z) : Z := (z + 2 ^ 63) mod 2 ^ 64 - 2 ^ 63.

Definition in_int (z : Z) : Prop := int_min <= z <= int_max.

(** ** Panics, errors and outcomes *)

(** The slice an index expression is applied to. *)
Inductive slice : Type := OfRounds | OfHand | OfPool | OfSetups.

Inductive panic : Type :=
  | IndexOutOfRange (target : slice) (index : Z) (len : nat)
  | IntnInvalidArgument
  | MakeLenOutOfRange
  | NilDereference.

Inductive error : Type :=
  | ErrTooFewSetups
  | ErrTooFewPunchlines
  | ErrNoGamesAvailable
  | ErrMalformedCSV
  | ErrPlayerNameExists
  | ErrGameDoesNotExist
  | ErrExternal (msg : string).

Inductive outcome (A : Type) : Type :=
  | Ok (a : A)
  | Panic (p : panic) (reached : A).

Arguments Ok {A} a.
Arguments Panic {A} p reached.

(** ** The random source *)

Record Rand : Type := mkRand { raw : nat -> nat; pos : nat }.

(** [rand.Intn n]: [None] is the panic on [n <= 0]. *)
Definition Intn (r : Rand) (n : nat) : option (nat * Rand) :=
  match n with
  | O => None
  | S _ => Some ((raw r (pos r) mod n)%nat, mkRand (raw r) (S (pos r)))
  end.

(** ** Data model *)

Definition Card : Type := string.

Module Player.
Record t : Type := mk { Name : string; Punchlines : list Card }.
Definition with_Punchlines (p : t) (h : list Card) : t := mk (Name p) h.
End Player.

Module Round.
Record t : Type := mk {
  Setup : Card * Card;
  Plays : option (gmap string Card);
  Votes : option (gmap string Card)
}.
Definition zero : t := mk (EmptyString, EmptyString) None None.
Definition with_Setup (r : t) (s : Card * Card) : t := mk s (Plays r) (Votes r).
Definition with_Plays (r : t) (m : option (gmap string Card)) : t :=
  mk (Setup r) m (Votes r).
Definition with_Votes (r : t) (m : option (gmap string Card)) : t :=
  mk (Setup r) (Plays r) m.
End Round.

Definition PLAY : string := "play".
Definition VOTE : string := "vote".
Definition handSize : Z := 6.

Module Game.
Record t : Type := mk {
  ID : Z;
  Players : list Player.t;
  Punchlines : list Card;
  Rounds : list Round.t;
  RoundsRemaining : Z;
  CurrentAction : string;
  Created : Z
}.
Definition with_Players (g : t) (ps : list Player.t) : t :=
  mk (ID g) ps (Punchlines g) (Rounds g) (RoundsRemaining g) (CurrentAction g) (Created g).
Definition with_Punchlines (g : t) (pool : list Card) : t :=
  mk (ID g) (Players g) pool (Rounds g) (RoundsRemaining g) (CurrentAction g) (Created g).
Definition with_Rounds (g : t) (rs : list Round.t) : t :=
  mk (ID g) (Players g) (Punchlines g) rs (RoundsRemaining g) (CurrentAction g) (Created g).
Definition with_RoundsRemaining (g : t) (n : Z) : t :=
  mk (ID g) (Players g) (Punchlines g) (Rounds g) n (CurrentAction g) (Created g).
Definition with_CurrentAction (g : t) (a : string) : t :=
  mk (ID g) (Players g) (Punchlines g) (Rounds g) (RoundsRemaining g) a (Created g).
End Game.

(** The length of a nil or allocated map. *)
Definition map_len (m : option (gmap string Card)) : nat :=
  match m with None => O | Some m => size m end.

(** [m[k] = v] after the [if m == nil { m = make(...) }] guard. *)
Definition map_store (m : option (gmap string Card)) (k : string) (v : Card)
  : option (gmap string Card) :=
  Some (<[k := v]> (default ∅ m)).

(** ** dealPunchlines *)

(** The body of the inner loop: draw a random index, take the card there,
    move the last card of the pool into the hole, shrink the pool, append the
    card to the hand. *)
Definition deal_one (hand pool : list Card) (r : Rand)
  : outcome (list Card * list Card * Rand) :=
  match Intn r (length pool) with
  | None => Panic IntnInvalidArgument (hand, pool, r)
  | Some (index, r') =>
    match pool !! index, pool !! (length pool - 1)%nat with
    | Some card, Some lst =>
      Ok (hand ++ [card], take (length pool - 1) (<[index := lst]> pool), r')
    | None, _ => Panic (IndexOutOfRange OfPool (Z.of_nat index) (length pool)) (hand, pool, r')
    | _, None => Panic (IndexOutOfRange OfPool (Z.of_nat (length pool) - 1) (length pool)) (hand, pool, r')
    end
  end.

(** [for i := 0; i < cardsNeeded; i++ { ... }] *)
Fixpoint deal_cards (cardsNeeded : nat) (hand pool : list Card) (r : Rand)
  : outcome (list Card * list Card * Rand) :=
  match cardsNeeded with
  | O => Ok (hand, pool, r)
  | S k =>
    match deal_one hand pool r with
    | Ok (hand', pool', r') => deal_cards k hand' pool' r'
    | Panic p s => Panic p s
    end
  end.

(** [for playerIndex := range g.Players { ... }]: the players still to visit,
    the pool and the random source go in; the visited players come out with
    the error the loop returned, if any. *)
Fixpoint deal_players (todo : list Player.t) (pool : list Card) (r : Rand)
  : outcome (list Player.t * list Card * Rand * option error) :=
  match todo with
  | [] => Ok ([], pool, r, None)
  | p :: rest =>
    let cardsNeeded := handSize - Z.of_nat (length (Player.Punchlines p)) in
    if Z.of_nat (length pool) <? cardsNeeded
    then Ok (p :: rest, pool, r, Some ErrTooFewPunchlines)
    else
      match deal_cards (Z.to_nat cardsNeeded) (Player.Punchlines p) pool r with
      | Panic e (hand', pool', r') =>
        Panic e (Player.with_Punchlines p hand' :: rest, pool', r', None)
      | Ok (hand', pool', r') =>
        match deal_players rest pool' r' with
        | Ok (rest', pool'', r'', err) =>
          Ok (Player.with_Punchlines p hand' :: rest', pool'', r'', err)
        | Panic e (rest', pool'', r'', err) =>
          Panic e (Player.with_Punchlines p hand' :: rest', pool'', r'', err)
        end
      end
  end.

Definition deal_result (g : Game.t)
    (s : list Player.t * list Card * Rand * option error)
  : Game.t * Rand * option error :=
  let '(ps, pool, r, err) := s in
  (Game.with_Punchlines (Game.with_Players g ps) pool, r, err).

Definition dealPunchlines (g : Game.t) (r : Rand)
  : outcome (Game.t * Rand * option error) :=
  match deal_players (Game.Players g) (Game.Punchlines g) r with
  | Ok s => Ok (deal_result g s)
  | Panic e s => Panic e (deal_result g s)
  end.

(** ** Play, Vote and AddPlayer *)

(** [s[i]] for an [int] index [i]; [None] is the index-out-of-range panic. *)
Definition at_index {A : Type} (s : list A) (i : Z) : option A :=
  if 0 <=? i then s !! Z.to_nat i else None.

(** The inner loop of the removal in [Play],
    [for j, punchline := range player.Punchlines { ... }].
    [player] is a copy of [g.Players[i]] made when the iteration on [i]
    starts, so the range runs over the original length of the hand and reads
    its backing array [arr], while the body writes the same backing array
    through [g.Players[i].Punchlines], whose current length is [n]. [todo]
    counts the iterations left and [j] is the range index. *)
Fixpoint rm_scan (card : Card) (todo j : nat) (arr : list Card) (n : nat)
  : outcome (list Card * nat) :=
  match todo with
  | O => Ok (arr, n)
  | S todo' =>
    match arr !! j with
    | None => Panic (IndexOutOfRange OfHand (Z.of_nat j) (length arr)) (arr, n)
    | Some punchline =>
      if decide (punchline = card) then
        (* the right-hand side [Punchlines[len-1]] is evaluated first *)
        match n with
        | O => Panic (IndexOutOfRange OfHand (-1) O) (arr, n)
        | S n' =>
          match arr !! n' with
          | None => Panic (IndexOutOfRange OfHand (Z.of_nat n') n) (arr, n)
          | Some lst =>
            (* then the store to [Punchlines[j]], checked against [len] *)
            if (j <? n)%nat
            then rm_scan card todo' (S j) (<[j := lst]> arr) n'
            else Panic (IndexOutOfRange OfHand (Z.of_nat j) n) (arr, n)
          end
        end
      else rm_scan card todo' (S j) arr n
    end
  end.

Definition rm_hand (card : Card) (hand : list Card) : outcome (list Card) :=
  match rm_scan card (length hand) O hand (length hand) with
  | Ok (arr, n) => Ok (take n arr)
  | Panic e (arr, n) => Panic e (take n arr)
  end.

(** The outer loop, [for i, player := range g.Players { ... }]: every
    player's hand is scanned, whoever submitted the card. *)
Fixpoint rm_players (card : Card) (todo : list Player.t) : outcome (list Player.t) :=
  match todo with
  | [] => Ok []
  | p :: rest =>
    match rm_hand card (Player.Punchlines p) with
    | Panic e h => Panic e (Player.with_Punchlines p h :: rest)
    | Ok h =>
      match rm_players card rest with
      | Ok rest' => Ok (Player.with_Punchlines p h :: rest')
      | Panic e rest' => Panic e (Player.with_Punchlines p h :: rest')
      end
    end
  end.

(** The first half of [Play]: store the card in the current round and flip
    the action when every player has an entry. *)
Definition record_play (g : Game.t) (round : Round.t) (playerName : string) (card : Card)
  : Game.t :=
  let index := wrap (Game.RoundsRemaining g - 1) in
  let round := Round.with_Plays round (map_store (Round.Plays round) playerName card) in
  let g := Game.with_Rounds g (<[Z.to_nat index := round]> (Game.Rounds g)) in
  if (map_len (Round.Plays round) =? length (Game.Players g))%nat
  then Game.with_CurrentAction g VOTE
  else g.

Definition Play (g : Game.t) (playerName : string) (card : Card) (r : Rand)
  : outcome (Game.t * Rand) :=
  let index := wrap (Game.RoundsRemaining g - 1) in
  match at_index (Game.Rounds g) index with
  | None => Panic (IndexOutOfRange OfRounds index (length (Game.Rounds g))) (g, r)
  | Some round =>
    let g := record_play g round playerName card in
    (* rm used punchline *)
    match rm_players card (Game.Players g) with
    | Panic e ps => Panic e (Game.with_Players g ps, r)
    | Ok ps =>
      match dealPunchlines (Game.with_Players g ps) r with
      | Ok (g', r', _) => Ok (g', r')
      | Panic e (g', r', _) => Panic e (g', r')
      end
    end
  end.

Definition Vote (g : Game.t) (playerName : string) (card : Card) (r : Rand)
  : outcome (Game.t * Rand) :=
  let index := wrap (Game.RoundsRemaining g - 1) in
  match at_index (Game.Rounds g) index with
  | None => Panic (IndexOutOfRange OfRounds index (length (Game.Rounds g))) (g, r)
  | Some round =>
    let round := Round.with_Votes round (map_store (Round.Votes round) playerName card) in
    let g := Game.with_Rounds g (<[Z.to_nat index := round]> (Game.Rounds g)) in
    if (map_len (Round.Votes round) =? length (Game.Players g))%nat
    then
      let g := Game.with_RoundsRemaining g (wrap (Game.RoundsRemaining g - 1)) in
      match dealPunchlines g r with
      | Ok (g', r', _) => Ok (Game.with_CurrentAction g' PLAY, r')
      | Panic e (g', r', _) => Panic e (g', r')
      end
    else Ok (g, r)
  end.

(** [for _, p := range g.Players { if p.Name == player.Name { return ... } }] *)
Fixpoint name_exists (ps : list Player.t) (name : string) : bool :=
  match ps with
  | [] => false
  | p :: rest => if decide (Player.Name p = name) then true else name_exists rest name
  end.

Definition AddPlayer (g : Game.t) (player : Player.t) (r : Rand)
  : outcome (Game.t * Rand * option error) :=
  if name_exists (Game.Players g) (Player.Name player)
  then Ok (g, r, Some ErrPlayerNameExists)
  else dealPunchlines (Game.with_Players g (Game.Players g ++ [player])) r.

(** ** createRounds *)

(** The largest length [make([]Round, n)] accepts: the runtime panics on a
    negative length and on one whose size in bytes exceeds the allocation
    limit (2^48 bytes on 64-bit targets; a [Round] takes 48 bytes). *)
Definition make_Rounds_max : Z := 2 ^ 48 / 48.

Definition make_Rounds (n : Z) : option (list Round.t) :=
  if (n <? 0) || (make_Rounds_max <? n) then None
  else Some (replicate (Z.to_nat n) Round.zero).

(** [setup[k] = c] on the array [[2]Card], for [k = i % 2]. *)
Definition set_setup (setup : Card * Card) (k : nat) (c : Card) : Card * Card :=
  match k with
  | O => (c, setup.2)
  | S _ => (setup.1, c)
  end.

(** The rejection-sampling loop. A drawn index already in [setupsMap] is
    drawn again ([i--; continue]), so the loop ends only if the random
    source keeps producing new indices: [fuel] bounds the number of draws,
    and [None] means the bound was reached with the loop still running. *)
Fixpoint createRounds_loop (fuel : nat) (setups : list Card) (setupsNeeded : Z)
    (i : nat) (setupsMap : gmap nat Card) (rounds : list Round.t) (r : Rand)
  : option (outcome (list Round.t * Rand)) :=
  if setupsNeeded <=? Z.of_nat i then Some (Ok (rounds, r))
  else
    match fuel with
    | O => None
    | S fuel' =>
      match Intn r (length setups) with
      | None => Some (Panic IntnInvalidArgument (rounds, r))
      | Some (index, r') =>
        match setupsMap !! index with
        | Some _ => createRounds_loop fuel' setups setupsNeeded i setupsMap rounds r'
        | None =>
          match setups !! index with
          | None =>
            Some (Panic (IndexOutOfRange OfSetups (Z.of_nat index) (length setups)) (rounds, r'))
          | Some c =>
            match rounds !! (i / 2)%nat with
            | None =>
              Some (Panic (IndexOutOfRange OfRounds (Z.of_nat (i / 2)) (length rounds)) (rounds, r'))
            | Some round =>
              let setup := set_setup (Round.Setup round) (i mod 2) c in
              createRounds_loop fuel' setups setupsNeeded (S i)
                (<[index := c]> setupsMap)
                (<[(i / 2)%nat := Round.with_Setup round setup]> rounds) r'
            end
          end
        end
      end
    end.

Definition createRounds (fuel : nat) (g : Game.t) (setups : list Card) (r : Rand)
  : option (outcome (Game.t * Rand * option error)) :=
  let setupsNeeded := wrap (Game.RoundsRemaining g * 2) in
  if Z.of_nat (length setups) <? setupsNeeded
  then Some (Ok (g, r, Some ErrTooFewSetups))
  else
    match make_Rounds (Game.RoundsRemaining g) with
    | None => Some (Panic MakeLenOutOfRange (g, r, None))
    | Some rounds =>
      match createRounds_loop fuel setups setupsNeeded O ∅ rounds r with
      | None => None
      | Some (Ok (rounds', r')) => Some (Ok (Game.with_Rounds g rounds', r', None))
      | Some (Panic e (rounds', r')) =>
        Some (Panic e (Game.with_Rounds g rounds', r', None))
      end
    end.

(** ** The registry: findID and GetGame *)

(** [games] maps an id to a [*Game]; [Some None] is an entry holding the nil
    pointer. Times are nanoseconds on the clock's scale; seeding the random
    source from the clock is part of the oracle. *)
Definition hour : Z := 3600 * 10 ^ 9.
Definition maxAttempts : nat := 100.

(** The probe loop with [attempts] probes left, [i] being the loop counter;
    [clock i] is what [time.Now()] reads in iteration [i]. *)
Fixpoint findID_loop (attempts i : nat) (games : gmap Z (option Game.t))
    (clock : nat -> Z) (r : Rand)
  : outcome (gmap Z (option Game.t) * Rand * Z * option error) :=
  match attempts with
  | O => Ok (games, r, 0, Some ErrNoGamesAvailable)
  | S attempts' =>
    match Intn r 99 with
    | None => Panic IntnInvalidArgument (games, r, 0, None)
    | Some (n, r') =>
      let id := Z.of_nat n in
      match games !! id with
      | None => Ok (games, r', id, None)
      | Some None => Panic NilDereference (games, r', id, None)
      | Some (Some game) =>
        (* game.Created.Add(time.Hour * 12).After(time.Now()) *)
        if clock i <? Game.Created game + hour * 12
        then Ok (<[id := None]> games, r', id, None)
        else findID_loop attempts' (S i) games clock r'
      end
    end
  end.

Definition findID (games : gmap Z (option Game.t)) (clock : nat -> Z) (r : Rand)
  : outcome (gmap Z (option Game.t) * Rand * Z * option error) :=
  findID_loop maxAttempts O games clock r.

Definition GetGame (games : gmap Z (option Game.t)) (id : Z)
  : option Game.t * option error :=
  match games !! id with
  | None => (None, Some ErrGameDoesNotExist)
  | Some g => (g, None)
  end.

(** ** The card source: isCleanEnough and getCardsCsv *)

Definition ranks : gmap string Z :=
  <["G"%string := 0]> (<["PG"%string := 1]> (<["PG-13"%string := 2]>
    (<["R"%string := 3]> (<["X"%string := 4]> ∅)))).

Definition isCleanEnough (cardCleanliness cleanliness : string) : bool * option error :=
  match ranks !! cardCleanliness with
  | None => (false, Some ErrMalformedCSV)
  | Some cardRank =>
    match ranks !! cleanliness with
    | None => (false, Some ErrMalformedCSV)
    | Some rank => if cardRank <=? rank then (true, None) else (false, None)
    end
  end.

(** What the [csv.Reader] delivers: the records it reads one at a time, and
    how reading ends ([None] is [io.EOF], [Some e] a read error). *)
Record csvReader : Type := mkReader {
  records : list (list string);
  ending : option error
}.

Section CardSource.
(** [strings.TrimSpace], a function of Go's standard library. *)
Variable TrimSpace : string -> string.

(** The [for { line, err := reader.Read() ... }] loop, [cards] being the
    slice built so far. *)
Fixpoint read_cards (rows : list (list string)) (ending : option error)
    (cleanliness : string) (cards : list Card) : list Card * option error :=
  match rows with
  | [] =>
    match ending with
    | None => (cards, None)
    | Some e => ([], Some e)
    end
  | line :: rest =>
    match line with
    | [text; rating] =>
      match isCleanEnough rating cleanliness with
      | (_, Some e) => ([], Some e)
      | (false, None) => read_cards rest ending cleanliness cards
      | (true, None) => read_cards rest ending cleanliness (cards ++ [TrimSpace text])
      end
    | _ => ([], Some ErrMalformedCSV)
    end
  end.

(** [resp] is what [s3Client.GetObject] answers: an error or a body, read
    through the csv reader. *)
Definition getCardsCsv (resp : error + csvReader) (cleanliness : string)
  : list Card * option error :=
  match resp with
  | inl e => ([], Some e)
  | inr reader => read_cards (records reader) (ending reader) cleanliness []
  end.
End CardSource.

(** ** NewGame *)

Definition setupsFile : string := "setups.csv".
Definition punchlinesFile : string := "punchlines.csv".

Section Creation.
(** [strings.TrimSpace], and what the object store answers to
    [s3Client.GetObject] for a key of the cards bucket. *)
Variable TrimSpace : string -> string.
Variable GetObject : string -> error + csvReader.

Definition getSetups (cleanliness : string) : list Card * option error :=
  getCardsCsv TrimSpace (GetObject setupsFile) cleanliness.

Definition getPunchlines (cleanliness : string) : list Card * option error :=
  getCardsCsv TrimSpace (GetObject punchlinesFile) cleanliness.

(** [NewGame] on the registry [games]: the registry and the random source
    come back with the [*Game] and the error. The new game is built with
    [ID], [Players], [Punchlines], [RoundsRemaining] and [CurrentAction];
    [Rounds] and [Created] keep their zero values, and the game enters the
    registry only after the rounds are built and the hand is dealt. [None]
    is [createRounds] still drawing when the fuel is spent. *)
Definition NewGame (fuel : nat) (games : gmap Z (option Game.t)) (clock : nat -> Z)
    (player : Player.t) (rounds : Z) (cleanliness : string) (r : Rand)
  : option (outcome (gmap Z (option Game.t) * Rand * option Game.t * option error)) :=
  match getPunchlines cleanliness with
  | (_, Some err) => Some (Ok (games, r, None, Some err))
  | (punchlines, None) =>
    match getSetups cleanliness with
    | (_, Some err) => Some (Ok (games, r, None, Some err))
    | (setups, None) =>
      match findID games clock r with
      | Panic e (games1, r1, _, _) => Some (Panic e (games1, r1, None, None))
      | Ok (games1, r1, _, Some err) => Some (Ok (games1, r1, None, Some err))
      | Ok (games1, r1, id, None) =>
        let g := Game.mk id [player] punchlines [] rounds PLAY 0 in
        match createRounds fuel g setups r1 with
        | None => None
        | Some (Panic e (_, r2, _)) => Some (Panic e (games1, r2, None, None))
        | Some (Ok (_, r2, Some err)) => Some (Ok (games1, r2, None, Some err))
        | Some (Ok (g1, r2, None)) =>
          match dealPunchlines g1 r2 with
          | Panic e (_, r3, _) => Some (Panic e (games1, r3, None, None))
          | Ok (_, r3, Some err) => Some (Ok (games1, r3, None, Some err))
          | Ok (g2, r3, None) =>
            Some (Ok (<[Game.ID g2 := Some g2]> games1, r3, Some g2, None))
          end
        end
      end
    end
  end.
End Creation.

(** ** Vocabulary of the properties *)

Definition swap_remove {A : Type} (i : nat) (lst : A) (l : list A) : list A :=
  take (length l - 1) (<[i := lst]> l).

(** What a player still needs, as the loop bound sees it: nothing when the
    hand already holds [handSize] cards or more. *)
Definition deficit (p : Player.t) : nat :=
  Z.to_nat (handSize - Z.of_nat (length (Player.Punchlines p))).

Definition total_deficit (ps : list Player.t) : nat :=
  sum_list_with deficit ps.

Definition hands (ps : list Player.t) : list Card :=
  concat (map Player.Punchlines ps).

(** [p'] is [p] after its refill. *)
Definition refilled (p p' : Player.t) : Prop :=
  Player.Name p' = Player.Name p /\
  exists dealt, Player.Punchlines p' = Player.Punchlines p ++ dealt /\
                length dealt = deficit p.

Definition at_most_once (card : Card) (hand : list Card) : Prop :=
  forall p q, hand !! p = Some card -> hand !! q = Some card -> p = q.

Definition rm_player (card : Card) (p p' : Player.t) : Prop :=
  Player.Name p' = Player.Name p /\
  rm_hand card (Player.Punchlines p) = Ok (Player.Punchlines p').

(** Every card a session holds: the hands, then the pool. *)
Definition all_cards (g : Game.t) : list Card :=
  hands (Game.Players g) ++ Game.Punchlines g.

Definition hand_within_target (p : Player.t) : Prop :=
  Z.of_nat (length (Player.Punchlines p)) <= handSize.

Definition hand_on_target (p : Player.t) : Prop :=
  Z.of_nat (length (Player.Punchlines p)) = handSize.

(** What the scan of [Play] does to one player: the name stays; a hand
    without the card is left as it is; a hand holding it at index [i] gets
    its last card written at [i] and loses its last position. *)
Definition removed (card : Card) (p p' : Player.t) : Prop :=
  Player.Name p' = Player.Name p /\
  (card ∉ Player.Punchlines p -> Player.Punchlines p' = Player.Punchlines p) /\
  (card ∈ Player.Punchlines p ->
   exists i lst,
     Player.Punchlines p !! i = Some card /\
     Player.Punchlines p !! (length (Player.Punchlines p) - 1)%nat = Some lst /\
     Player.Punchlines p' = swap_remove i lst (Player.Punchlines p)).

(** ** Concrete sessions used as examples *)

Definition rand0 : Rand := mkRand (fun k => k) O.

(** One player short of two cards, one card in the pool. *)
Definition game_short : Game.t :=
  Game.mk 7 [Player.mk "al" ["a"; "b"; "c"; "d"]%string] ["p"%string]
    [Round.zero] 1 PLAY 0.

(** Two players, one of them short of two cards, three cards in the pool. *)
Definition game_two : Game.t :=
  Game.mk 8
    [Player.mk "al" ["a1"; "a2"; "a3"; "a4"; "a5"; "a6"]%string;
     Player.mk "bob" ["b1"; "b2"; "b3"; "b4"]%string]
    ["p1"; "p2"; "p3"]%string
    [Round.zero] 1 PLAY 0.

(** [game_two] in the voting phase. *)
Definition game_voting : Game.t := Game.with_CurrentAction game_two VOTE.

(** [game_two] with no round left. *)
Definition game_over : Game.t := Game.with_RoundsRemaining game_two 0.

(** A hand that holds a card twice, the second copy in last position. *)
Definition game_twice : Game.t :=
  Game.mk 9 [Player.mk "al" ["x"; "y"; "x"]%string] [] [Round.zero] 1 PLAY 0.

(** The panic is an index out of range on the given slice. *)
Definition index_panic_on (target : slice) (p : panic) : Prop :=
  match p with
  | IndexOutOfRange target' _ _ => target' = target
  | _ => False
  end.

(** The precondition of [Play] and [Vote] on the round counter. *)
Definition round_in_range (g : Game.t) : Prop :=
  1 <= Game.RoundsRemaining g <= Z.of_nat (length (Game.Rounds g)).

(** What the types of Go guarantee: the counter is an [int] and a slice has
    at most [int_max] elements. *)
Definition int_typed (g : Game.t) : Prop :=
  in_int (Game.RoundsRemaining g) /\
  Z.of_nat (length (Game.Rounds g)) <= int_max.

(** A run of play calls, in order. *)
Fixpoint play_all (plays : list (string * Card)) (g : Game.t) (r : Rand)
  : outcome (Game.t * Rand) :=
  match plays with
  | [] => Ok (g, r)
  | (name, card) :: rest =>
    match Play g name card r with
    | Ok (g', r') => play_all rest g' r'
    | Panic e st => Panic e st
    end
  end.

(** The players who submitted in a run. *)
Definition names_of (plays : list (string * Card)) : gset string :=
  list_to_set (map fst plays).

(** The players with an entry in a plays or votes map. *)
Definition entered (m : option (gmap string Card)) : gset string :=
  dom (default ∅ m).


Definition row_text (line : list string) : string :=
  match line with
  | text :: _ => text
  | [] => EmptyString
  end.



(** A card source used as example: the one of the repository's test. *)
Definition reader_test : csvReader :=
  mkReader [["test"; "R"]%string; ["test2"; "R"]%string; ["test3"; "G"]%string]
    None.

(** A registry in which every id of the id space holds a session created at
    time [created]. *)
Definition games_full (created : Z) : gmap Z (option Game.t) :=
  list_to_map
    ((fun n => (Z.of_nat n, Some (Game.mk (Z.of_nat n) [] [] [] 0 PLAY created)))
       <$> seq 0 99).

(** The card in position [q] of the rounds, the two positions of round 0
    coming first, then those of round 1, and so on. *)
Definition slot (rounds : list Round.t) (q : nat) : option Card :=
  match rounds !! (q / 2)%nat with
  | Some round =>
    Some (if (q mod 2 =? 0)%nat then (Round.Setup round).1 else (Round.Setup round).2)
  | None => None
  end.

(** All the setup cards of the rounds, in position order. *)
Definition setup_cards (rounds : list Round.t) : list Card :=
  concat (map (fun round => [(Round.Setup round).1; (Round.Setup round).2]) rounds).

(** The indices that [fuel] successive calls of [rand.Intn n] return. *)
Fixpoint draws (r : Rand) (n fuel : nat) : list nat :=
  match fuel with
  | O => []
  | S fuel' => (raw r (pos r) mod n)%nat :: draws (mkRand (raw r) (S (pos r))) n fuel'
  end.

(** The indices the loop of [createRounds] has accepted so far, in order:
    they are those recorded in [setupsMap], and position [q] of the rounds
    holds the card at the [q]-th of them. *)
Definition picked (setups : list Card) (setupsMap : gmap nat Card)
    (rounds : list Round.t) (picks : list nat) : Prop :=
  NoDup picks /\
  (forall x, is_Some (setupsMap !! x) <-> x ∈ picks) /\
  (forall q index, picks !! q = Some index ->
     is_Some (setups !! index) /\ slot rounds q = setups !! index).

(** A session of three rounds to build, as in the specification's example. *)
Definition game_three : Game.t := Game.mk 3 [] [] [] 3 PLAY 0.

Definition six_setups : list Card := ["c1"; "c2"; "c3"; "c4"; "c5"; "c6"]%string.

(** One round to build from a catalogue that holds the same text twice. *)
Definition game_one : Game.t := Game.mk 1 [] [] [] 1 PLAY 0.

Definition twin_setups : list Card := ["a"; "a"]%string.

(** The sessions of [TestDealPunchlines]. *)
Definition game_test_deal : Game.t :=
  Game.mk 0 [Player.mk "al" []; Player.mk "bob" []]
    ["1"; "2"; "3"; "4"; "5"; "6"; "7"; "8"; "9"; "10"; "11"; "12"]%string
    [] 0 EmptyString 0.

Definition game_test_deal_short : Game.t :=
  Game.mk 0 [Player.mk "al" []; Player.mk "bob" []] ["1"%string]
    [] 0 EmptyString 0.

(** ** Vocabulary of the further properties *)

(** The hand holds [handSize] cards or more: the refill has nothing to add. *)
Definition hand_full (p : Player.t) : Prop :=
  handSize <= Z.of_nat (length (Player.Punchlines p)).

(** A hand of seven cards and an empty pool. *)
Definition game_seven : Game.t :=
  Game.mk 4 [Player.mk "al" ["a"; "b"; "c"; "d"; "e"; "f"; "g"]%string] []
    [Round.zero] 1 PLAY 0.

(** The id the [k]-th probe of [findID] draws. *)
Definition probe (r : Rand) (k : nat) : Z :=
  Z.of_nat (raw r (pos r + k) mod 99).

(** The [k]-th probe, made at counter [i], finds a session that the test of
    [findID] does not reclaim. *)
Definition skipped (games : gmap Z (option Game.t)) (clock : nat -> Z)
    (r : Rand) (i k : nat) : Prop :=
  exists game,
    games !! probe r k = Some (Some game) /\
    Game.Created game + hour * 12 <= clock (i + k)%nat.

(** One session at id 5, created at time 0; every other id is free. *)
Definition games_one : gmap Z (option Game.t) :=
  {[ 5 := Some (Game.mk 5 [] [] [] 0 PLAY 0) ]}.

(** A random source that always draws 5. *)
Definition rand_five : Rand := mkRand (fun _ => 5%nat) O.

(** The registry [games'] is [games], or [games] with the session of one id
    replaced by nil. *)
Definition reclaimed_only (games games' : gmap Z (option Game.t)) : Prop :=
  games' = games \/
  exists id game, games !! id = Some (Some game) /\ games' = <[id := None]> games.

(** An object store with two setup cards and six punchlines. *)
Definition store_test (key : string) : error + csvReader :=
  if decide (key = setupsFile)
  then inr (mkReader [["s1"; "G"]%string; ["s2"; "PG"]%string] None)
  else inr (mkReader [["p1"; "G"]%string; ["p2"; "G"]%string; ["p3"; "G"]%string;
                      ["p4"; "PG"]%string; ["p5"; "G"]%string; ["p6"; "G"]%string]
              None).

(** The names of the players, in order. *)
Definition names (g : Game.t) : list string := map Player.Name (Game.Players g).

(** Two full hands and three cards in the pool. *)
Definition game_six : Game.t :=
  Game.mk 6
    [Player.mk "al" ["a1"; "a2"; "a3"; "a4"; "a5"; "a6"]%string;
     Player.mk "bob" ["b1"; "b2"; "b3"; "b4"; "b5"; "b6"]%string]
    ["p1"; "p2"; "p3"]%string
    [Round.zero] 1 PLAY 0.

(** A full hand and an empty pool. *)
Definition game_dry : Game.t :=
  Game.mk 2 [Player.mk "al" ["a1"; "a2"; "a3"; "a4"; "a5"; "a6"]%string] []
    [Round.zero] 1 PLAY 0.

(** A session asked to build a negative number of rounds. *)
Definition game_negative : Game.t := Game.mk 1 [] [] [] (-1) PLAY 0.

(** A random source that always draws 0. *)
Definition rand_zero : Rand := mkRand (fun _ => O) O.

(** A card source without records. *)
Definition reader_empty : csvReader := mkReader [] None.

(** A run of vote calls, in order. *)
Fixpoint vote_all (votes : list (string * Card)) (g : Game.t) (r : Rand)
  : outcome (Game.t * Rand) :=
  match votes with
  | [] => Ok (g, r)
  | (name, card) :: rest =>
    match Vote g name card r with
    | Ok (g', r') => vote_all rest g' r'
    | Panic e st => Panic e st
    end
  end.

(** * Properties *)

(** ** Swap-remove on a slice *)

Lemma swap_remove_length {A : Type} (i : nat) (lst : A) (l : list A) :
  length (swap_remove i lst l) = (length l - 1)%nat.
Proof.
  unfold swap_remove. rewrite length_take, length_insert. lia.
Qed.

Lemma swap_remove_perm {A : Type} (i : nat) (c lst : A) (l : list A) :
  l !! i = Some c ->
  l !! (length l - 1)%nat = Some lst ->
  c :: swap_remove i lst l ≡ₚ l.
Proof.
  intros Hi Hl. unfold swap_remove.
  pose proof (lookup_lt_Some _ _ _ Hi) as Hlt.
  assert (Hsplit : l = take (length l - 1) l ++ [lst]).
  { rewrite <- (take_drop_middle l (length l - 1) lst) at 1 by done.
    rewrite drop_ge by lia. done. }
  destruct (decide (i = (length l - 1)%nat)) as [->|Hne].
  - assert (c = lst) as -> by congruence.
    rewrite list_insert_id by done.
    rewrite Hsplit at 3. apply Permutation_cons_append.
  - rewrite take_insert_lt by lia.
    set (l0 := take (length l - 1) l) in *.
    assert (H0 : l0 !! i = Some c).
    { unfold l0. rewrite lookup_take_lt by lia. done. }
    transitivity (l0 ++ [lst]); [|by rewrite <- Hsplit].
    rewrite <- (take_drop_middle l0 i c) at 2 by done.
    rewrite insert_take_drop by (unfold l0; rewrite length_take; lia).
    rewrite <- app_assoc. simpl.
    rewrite <- !Permutation_middle.
    by rewrite app_nil_r.
Qed.

(** ** dealPunchlines never panics and only moves cards *)

Lemma Intn_Some (r : Rand) (n : nat) :
  (0 < n)%nat ->
  exists index, (index < n)%nat /\ Intn r n = Some (index, mkRand (raw r) (S (pos r))).
Proof.
  intros Hn. destruct n as [|n]; [lia|].
  eexists. split; [|reflexivity].
  apply Nat.mod_upper_bound. lia.
Qed.

Lemma deal_one_spec (hand pool : list Card) (r : Rand) :
  (0 < length pool)%nat ->
  exists card pool' r',
    deal_one hand pool r = Ok (hand ++ [card], pool', r') /\
    card :: pool' ≡ₚ pool /\
    length pool' = (length pool - 1)%nat.
Proof.
  intros Hpos. unfold deal_one.
  destruct (Intn_Some r (length pool) Hpos) as (index & Hlt & ->).
  destruct (lookup_lt_is_Some_2 pool index Hlt) as [card Hcard].
  destruct (lookup_lt_is_Some_2 pool (length pool - 1)) as [lst Hlst]; [lia|].
  rewrite Hcard, Hlst.
  eexists card, _, _. split; [reflexivity|]. split.
  - by apply swap_remove_perm.
  - apply swap_remove_length.
Qed.

Lemma deal_cards_spec (k : nat) (hand pool : list Card) (r : Rand) :
  (k <= length pool)%nat ->
  exists dealt pool' r',
    deal_cards k hand pool r = Ok (hand ++ dealt, pool', r') /\
    length dealt = k /\
    dealt ++ pool' ≡ₚ pool.
Proof.
  revert hand pool r. induction k as [|k IH]; intros hand pool r Hk; simpl.
  - exists [], pool, r. by rewrite app_nil_r.
  - destruct (deal_one_spec hand pool r) as (card & pool1 & r1 & -> & Hperm & Hlen); [lia|].
    destruct (IH (hand ++ [card]) pool1 r1) as (dealt & pool' & r' & -> & Hd & Hp); [lia|].
    exists (card :: dealt), pool', r'. split; [|split].
    + by rewrite <- app_assoc.
    + simpl. by rewrite Hd.
    + simpl. by rewrite Hp.
Qed.

Lemma deal_players_spec (todo : list Player.t) (pool : list Card) (r : Rand) :
  exists ps' pool' r' err,
    deal_players todo pool r = Ok (ps', pool', r', err) /\
    hands ps' ++ pool' ≡ₚ hands todo ++ pool /\
    match err with
    | None =>
      Forall2 refilled todo ps' /\
      (length pool' + total_deficit todo = length pool)%nat
    | Some e =>
      e = ErrTooFewPunchlines /\
      exists before before' p rest,
        todo = before ++ p :: rest /\ ps' = before' ++ p :: rest /\
        Forall2 refilled before before' /\
        (length pool' + total_deficit before = length pool)%nat /\
        (length pool' < deficit p)%nat
    end.
Proof.
  revert pool r. induction todo as [|p rest IH]; intros pool r; simpl.
  - exists [], pool, r, None. repeat split; [done|constructor|unfold total_deficit; simpl; lia].
  - destruct (Z.ltb_spec (Z.of_nat (length pool))
                (handSize - Z.of_nat (length (Player.Punchlines p)))) as [Hlt|Hge].
    + exists (p :: rest), pool, r, (Some ErrTooFewPunchlines).
      repeat split; [done|].
      exists [], [], p, rest. repeat split; [constructor|unfold total_deficit; simpl; lia|].
      unfold deficit. lia.
    + destruct (deal_cards_spec (deficit p) (Player.Punchlines p) pool r)
        as (dealt & pool1 & r1 & Hdeal & Hd & Hp); [unfold deficit; lia|].
      fold (deficit p). rewrite Hdeal.
      destruct (IH pool1 r1) as (ps' & pool' & r' & err & -> & Hperm & Herr).
      eexists _, pool', r', err. split; [reflexivity|].
      assert (Hrf : refilled p (Player.with_Punchlines p (Player.Punchlines p ++ dealt))).
      { split; [done|]. by exists dealt. }
      assert (Hlen : (length pool1 + deficit p = length pool)%nat).
      { rewrite <- Hp, length_app. lia. }
      split.
      * unfold hands in *. simpl. rewrite <- !app_assoc, Hperm.
        rewrite <- Hp. rewrite !app_assoc.
        apply Permutation_app_tail.
        rewrite <- !app_assoc. apply Permutation_app_head, Permutation_app_comm.
      * destruct err as [e|].
        -- destruct Herr as (-> & before & before' & q & rest' & -> & -> & HF & Hl & Hq).
           split; [done|].
           exists (p :: before), (Player.with_Punchlines p (Player.Punchlines p ++ dealt) :: before'), q, rest'.
           repeat split; [by constructor| |done].
           unfold total_deficit in *. simpl. lia.
        -- destruct Herr as (HF & Hl). split; [by constructor|].
           unfold total_deficit in *. simpl. lia.
Qed.

Lemma dealPunchlines_spec (g : Game.t) (r : Rand) :
  exists ps' pool' r' err,
    dealPunchlines g r =
      Ok (Game.with_Punchlines (Game.with_Players g ps') pool', r', err) /\
    deal_players (Game.Players g) (Game.Punchlines g) r = Ok (ps', pool', r', err).
Proof.
  destruct (deal_players_spec (Game.Players g) (Game.Punchlines g) r)
    as (ps' & pool' & r' & err & Heq & _).
  exists ps', pool', r', err. split; [|done].
  unfold dealPunchlines. by rewrite Heq.
Qed.

(** ** The removal loop of Play *)

Lemma NoDup_at_most_once (card : Card) (hand : list Card) :
  NoDup hand -> at_most_once card hand.
Proof. intros Hnd p q Hp Hq. eapply NoDup_lookup; eauto. Qed.

Lemma rm_scan_absent (card : Card) (todo j : nat) (arr : list Card) (n : nat) :
  (j + todo = length arr)%nat ->
  card ∉ drop j arr ->
  rm_scan card todo j arr n = Ok (arr, n).
Proof.
  revert j. induction todo as [|todo IH]; intros j Hlen Hnot; simpl; [done|].
  destruct (lookup_lt_is_Some_2 arr j) as [x Hx]; [lia|].
  rewrite Hx. rewrite (drop_S _ _ _ Hx) in Hnot.
  apply not_elem_of_cons in Hnot as [Hne Hnot].
  rewrite decide_False by congruence.
  apply IH; [lia|done].
Qed.

Lemma rm_scan_once (card : Card) (todo j : nat) (arr : list Card) (n p : nat) (lst : Card) :
  (j + todo = length arr)%nat -> n = length arr -> (j <= p)%nat ->
  arr !! p = Some card ->
  (forall q, arr !! q = Some card -> q = p) ->
  arr !! (length arr - 1)%nat = Some lst ->
  rm_scan card todo j arr n = Ok (<[p := lst]> arr, (length arr - 1)%nat).
Proof.
  revert j. induction todo as [|todo IH]; intros j Hlen Hn Hjp Hp Huniq Hlst; simpl.
  - apply lookup_lt_Some in Hp. lia.
  - destruct (lookup_lt_is_Some_2 arr j) as [x Hx]; [lia|].
    rewrite Hx. destruct (decide (x = card)) as [->|Hne].
    + assert (j = p) as -> by auto.
      apply lookup_lt_Some in Hp as Hlt.
      destruct n as [|n']; [lia|].
      replace n' with (length arr - 1)%nat by lia.
      rewrite Hlst.
      replace (p <? S (length arr - 1))%nat with true
        by (symmetry; apply Nat.ltb_lt; lia).
      apply rm_scan_absent; [rewrite length_insert; lia|].
      rewrite drop_insert_lt by lia.
      intros Hin. apply list_elem_of_lookup in Hin as [q Hq].
      rewrite lookup_drop in Hq. apply Huniq in Hq. lia.
    + apply IH; try done; [lia|].
      destruct (decide (j = p)) as [->|]; [congruence|lia].
Qed.

Lemma rm_hand_absent (card : Card) (hand : list Card) :
  card ∉ hand -> rm_hand card hand = Ok hand.
Proof.
  intros Hnot. unfold rm_hand.
  rewrite rm_scan_absent by done. by rewrite firstn_all.
Qed.

Lemma rm_hand_once (card : Card) (hand : list Card) :
  at_most_once card hand -> card ∈ hand ->
  exists p lst,
    hand !! p = Some card /\ hand !! (length hand - 1)%nat = Some lst /\
    rm_hand card hand = Ok (swap_remove p lst hand).
Proof.
  intros Hone Hin. apply list_elem_of_lookup in Hin as [p Hp].
  apply lookup_lt_Some in Hp as Hlt.
  destruct (lookup_lt_is_Some_2 hand (length hand - 1)) as [lst Hlst]; [lia|].
  exists p, lst. repeat split; try done.
  unfold rm_hand.
  rewrite (rm_scan_once card (length hand) 0 hand (length hand) p lst);
    try done; [lia|].
  intros q Hq. by apply (Hone q p).
Qed.

(** A hand that holds the card at most once loses exactly that copy. *)
Lemma rm_hand_spec (card : Card) (hand : list Card) :
  at_most_once card hand ->
  exists hand',
    rm_hand card hand = Ok hand' /\
    (card ∈ hand -> card :: hand' ≡ₚ hand) /\
    (card ∉ hand -> hand' = hand).
Proof.
  intros Hone. destruct (decide (card ∈ hand)) as [Hin|Hnot].
  - destruct (rm_hand_once card hand Hone Hin) as (p & lst & Hp & Hlst & ->).
    eexists. split; [reflexivity|]. split; [|done].
    intros _. by apply swap_remove_perm.
  - exists hand. split; [by apply rm_hand_absent|]. by split.
Qed.

Lemma rm_players_spec (card : Card) (ps : list Player.t) :
  Forall (fun p => at_most_once card (Player.Punchlines p)) ps ->
  exists ps', rm_players card ps = Ok ps' /\ Forall2 (rm_player card) ps ps'.
Proof.
  induction 1 as [|p rest Hp _ IH]; simpl.
  - exists []. split; [done|constructor].
  - destruct (rm_hand_spec card _ Hp) as (h & Hh & _).
    destruct IH as (rest' & -> & HF). rewrite Hh.
    eexists. split; [reflexivity|]. constructor; [|done]. by split.
Qed.

Lemma total_deficit_app (ps qs : list Player.t) :
  total_deficit (ps ++ qs) = (total_deficit ps + total_deficit qs)%nat.
Proof. apply sum_list_with_app. Qed.

Lemma total_deficit_cons (p : Player.t) (ps : list Player.t) :
  total_deficit (p :: ps) = (deficit p + total_deficit ps)%nat.
Proof. reflexivity. Qed.

Lemma refilled_on_target (p p' : Player.t) :
  hand_within_target p -> refilled p p' -> hand_on_target p'.
Proof.
  unfold hand_within_target, hand_on_target, refilled, deficit.
  intros Hle (_ & dealt & -> & Hd). rewrite length_app, Hd. lia.
Qed.

Lemma Forall2_refilled_on_target (ps ps' : list Player.t) :
  Forall hand_within_target ps -> Forall2 refilled ps ps' ->
  Forall hand_on_target ps'.
Proof.
  intros Hw HF. induction HF as [|p p' ps ps' Hp _ IH]; [constructor|].
  apply Forall_cons in Hw as [Hp0 Hw].
  constructor; [by eapply refilled_on_target|by apply IH].
Qed.




(** ** What the removal loop does to the hands *)

Lemma rm_player_absent (card : Card) (p p' : Player.t) :
  card ∉ Player.Punchlines p -> rm_player card p p' -> p' = p.
Proof.
  intros Hnot [Hname Hrm]. rewrite rm_hand_absent in Hrm by done.
  destruct p, p'; simpl in *. by simplify_eq.
Qed.

Lemma not_elem_of_hands_cons (card : Card) (p : Player.t) (ps : list Player.t) :
  card ∉ hands (p :: ps) <-> (card ∉ Player.Punchlines p) /\ (card ∉ hands ps).
Proof. unfold hands. simpl. rewrite elem_of_app. tauto. Qed.

Lemma rm_players_absent (card : Card) (ps ps' : list Player.t) :
  card ∉ hands ps -> Forall2 (rm_player card) ps ps' -> ps' = ps.
Proof.
  intros Hnot HF. induction HF as [|p p' ps ps' Hp _ IH]; [done|].
  apply not_elem_of_hands_cons in Hnot as [Hp0 Hps].
  f_equal; [by eapply rm_player_absent|by apply IH].
Qed.

Lemma rm_players_present (card : Card) (ps ps' : list Player.t) :
  NoDup (hands ps) -> card ∈ hands ps ->
  Forall2 (rm_player card) ps ps' ->
  card :: hands ps' ≡ₚ hands ps.
Proof.
  intros Hnd Hin HF. induction HF as [|p p' ps ps' Hp HF IH]; [by inversion Hin|].
  unfold hands in *. simpl in *.
  apply NoDup_app in Hnd as (Hndp & Hdisj & Hndps).
  destruct (decide (card ∈ Player.Punchlines p)) as [Hinp|Hnotp].
  - assert (ps' = ps) as ->.
    { eapply rm_players_absent; [|exact HF]. by apply Hdisj. }
    destruct Hp as [_ Hrm].
    destruct (rm_hand_spec card (Player.Punchlines p)) as (h & Hh & Hperm & _);
      [by apply NoDup_at_most_once|].
    rewrite Hh in Hrm. simplify_eq.
    by rewrite app_comm_cons, (Hperm Hinp).
  - assert (p' = p) as -> by (by eapply rm_player_absent).
    apply elem_of_app in Hin as [Hin|Hin]; [done|].
    rewrite Permutation_middle. apply Permutation_app_head. by apply IH.
Qed.

Lemma NoDup_hands_at_most_once (card : Card) (ps : list Player.t) :
  NoDup (hands ps) ->
  Forall (fun p => at_most_once card (Player.Punchlines p)) ps.
Proof.
  unfold hands. induction ps as [|p ps IH]; simpl; intros Hnd; [constructor|].
  apply NoDup_app in Hnd as (Hndp & _ & Hndps).
  constructor; [by apply NoDup_at_most_once|by apply IH].
Qed.

(** ** Play and Vote step by step *)

Lemma record_play_Players g round name card :
  Game.Players (record_play g round name card) = Game.Players g.
Proof. unfold record_play. by case_match. Qed.

Lemma record_play_Punchlines g round name card :
  Game.Punchlines (record_play g round name card) = Game.Punchlines g.
Proof. unfold record_play. by case_match. Qed.

Lemma record_play_RoundsRemaining g round name card :
  Game.RoundsRemaining (record_play g round name card) = Game.RoundsRemaining g.
Proof. unfold record_play. by case_match. Qed.

Lemma record_play_Rounds g round name card :
  Game.Rounds (record_play g round name card)
  = <[Z.to_nat (wrap (Game.RoundsRemaining g - 1)) :=
        Round.with_Plays round (map_store (Round.Plays round) name card)]>
      (Game.Rounds g).
Proof. unfold record_play. by case_match. Qed.

Lemma record_play_CurrentAction g round name card :
  Game.CurrentAction (record_play g round name card)
  = if (map_len (map_store (Round.Plays round) name card)
        =? length (Game.Players g))%nat
    then VOTE else Game.CurrentAction g.
Proof. unfold record_play. simpl. by case_match. Qed.

(** With the current round in range and no hand holding the card twice,
    [Play] runs to its end: the card is recorded, the hands are scanned and
    the refill is attempted (its error, if any, is dropped). *)
Lemma Play_spec (g : Game.t) (name : string) (card : Card) (r : Rand) (round : Round.t) :
  at_index (Game.Rounds g) (wrap (Game.RoundsRemaining g - 1)) = Some round ->
  Forall (fun p => at_most_once card (Player.Punchlines p)) (Game.Players g) ->
  exists ps1 ps' pool' r' err,
    Forall2 (rm_player card) (Game.Players g) ps1 /\
    deal_players ps1 (Game.Punchlines g) r = Ok (ps', pool', r', err) /\
    hands ps' ++ pool' ≡ₚ hands ps1 ++ Game.Punchlines g /\
    Play g name card r
    = Ok (Game.with_Punchlines
            (Game.with_Players (record_play g round name card) ps') pool', r').
Proof.
  intros Hround Hone. unfold Play. rewrite Hround.
  rewrite record_play_Players.
  destruct (rm_players_spec card _ Hone) as (ps1 & -> & HF).
  destruct (deal_players_spec ps1 (Game.Punchlines g) r)
    as (ps' & pool' & r' & err & Hdeal & Hperm & _).
  exists ps1, ps', pool', r', err. repeat split; try done.
  unfold dealPunchlines. simpl. rewrite record_play_Punchlines, Hdeal. simpl.
  done.
Qed.

Lemma Vote_spec (g : Game.t) (name : string) (card : Card) (r : Rand) (round : Round.t) :
  at_index (Game.Rounds g) (wrap (Game.RoundsRemaining g - 1)) = Some round ->
  let votes := map_store (Round.Votes round) name card in
  let g1 := Game.with_Rounds g
              (<[Z.to_nat (wrap (Game.RoundsRemaining g - 1)) :=
                   Round.with_Votes round votes]> (Game.Rounds g)) in
  (map_len votes <> length (Game.Players g) -> Vote g name card r = Ok (g1, r)) /\
  (map_len votes = length (Game.Players g) ->
   exists ps' pool' r' err,
     deal_players (Game.Players g) (Game.Punchlines g) r = Ok (ps', pool', r', err) /\
     hands ps' ++ pool' ≡ₚ all_cards g /\
     Vote g name card r
     = Ok (Game.with_CurrentAction
             (Game.with_Punchlines
                (Game.with_Players
                   (Game.with_RoundsRemaining g1 (wrap (Game.RoundsRemaining g - 1)))
                   ps') pool') PLAY, r')).
Proof.
  intros Hround votes g1. unfold Vote. rewrite Hround. simpl.
  fold votes. split; intros Hlen.
  - apply Nat.eqb_neq in Hlen. by rewrite Hlen.
  - rewrite Hlen, Nat.eqb_refl.
    destruct (deal_players_spec (Game.Players g) (Game.Punchlines g) r)
      as (ps' & pool' & r' & err & Hdeal & Hperm & _).
    exists ps', pool', r', err. repeat split; try done.
    unfold dealPunchlines. simpl. by rewrite Hdeal.
Qed.

(** ** Conservation of the cards *)

Lemma dealPunchlines_conserves (g : Game.t) (r : Rand) :
  exists g' r' err,
    dealPunchlines g r = Ok (g', r', err) /\ all_cards g' ≡ₚ all_cards g.
Proof.
  destruct (deal_players_spec (Game.Players g) (Game.Punchlines g) r)
    as (ps' & pool' & r' & err & Hdeal & Hperm & _).
  eexists _, r', err. unfold dealPunchlines. rewrite Hdeal. simpl.
  split; [reflexivity|]. exact Hperm.
Qed.

Lemma Vote_conserves (g : Game.t) (name : string) (card : Card) (r : Rand)
    (round : Round.t) :
  at_index (Game.Rounds g) (wrap (Game.RoundsRemaining g - 1)) = Some round ->
  exists g' r', Vote g name card r = Ok (g', r') /\ all_cards g' ≡ₚ all_cards g.
Proof.
  intros Hround. destruct (Vote_spec g name card r round Hround) as [Hne Heq].
  destruct (decide (map_len (map_store (Round.Votes round) name card)
                    = length (Game.Players g))) as [Hlen|Hlen].
  - destruct (Heq Hlen) as (ps' & pool' & r' & err & _ & Hperm & ->).
    eexists _, r'. split; [reflexivity|]. exact Hperm.
  - rewrite (Hne Hlen). eexists _, r. split; [reflexivity|]. done.
Qed.

Lemma Play_cards (g : Game.t) (name : string) (card : Card) (r : Rand)
    (round : Round.t) :
  at_index (Game.Rounds g) (wrap (Game.RoundsRemaining g - 1)) = Some round ->
  NoDup (all_cards g) ->
  exists g' r',
    Play g name card r = Ok (g', r') /\
    NoDup (all_cards g') /\
    (card ∈ hands (Game.Players g) -> card :: all_cards g' ≡ₚ all_cards g) /\
    (card ∉ hands (Game.Players g) -> all_cards g' ≡ₚ all_cards g).
Proof.
  intros Hround Hnd.
  assert (Hndh : NoDup (hands (Game.Players g))).
  { unfold all_cards in Hnd. by apply NoDup_app in Hnd as (? & _ & _). }
  destruct (Play_spec g name card r round Hround)
    as (ps1 & ps' & pool' & r' & err & HF & _ & Hperm & ->);
    [by apply NoDup_hands_at_most_once|].
  eexists _, r'. split; [reflexivity|].
  unfold all_cards at 1 3 5. simpl.
  assert (Hin : card ∈ hands (Game.Players g) ->
                card :: hands ps' ++ pool' ≡ₚ all_cards g).
  { intros Hin. rewrite Hperm. unfold all_cards.
    rewrite app_comm_cons. apply Permutation_app_tail.
    by apply rm_players_present. }
  assert (Hnot : card ∉ hands (Game.Players g) ->
                 hands ps' ++ pool' ≡ₚ all_cards g).
  { intros Hnot. rewrite Hperm.
    by rewrite (rm_players_absent card _ _ Hnot HF). }
  repeat split; try done.
  destruct (decide (card ∈ hands (Game.Players g))) as [Hc|Hc].
  - rewrite <- (Hin Hc) in Hnd. by apply NoDup_cons in Hnd as [_ ?].
  - by rewrite (Hnot Hc).
Qed.

(** C3, as the code has it. A refill and a vote only move cards between the
    pool and the hands: the cards of the session are the same before and
    after, so their number and the absence of duplicates are kept. A play on
    a session without duplicate cards keeps it without duplicates, but it
    takes the played card out of the session when a hand holds it: the total
    drops by one. *)
Theorem cards_conserved_except_played (g : Game.t) (name : string) (card : Card)
    (r : Rand) (round : Round.t) :
  at_index (Game.Rounds g) (wrap (Game.RoundsRemaining g - 1)) = Some round ->
  (exists g' r' err,
     dealPunchlines g r = Ok (g', r', err) /\ all_cards g' ≡ₚ all_cards g) /\
  (exists g' r',
     Vote g name card r = Ok (g', r') /\ all_cards g' ≡ₚ all_cards g) /\
  (NoDup (all_cards g) ->
   exists g' r',
     Play g name card r = Ok (g', r') /\
     NoDup (all_cards g') /\
     (card ∈ hands (Game.Players g) ->
      card :: all_cards g' ≡ₚ all_cards g /\
      S (length (all_cards g')) = length (all_cards g)) /\
     (card ∉ hands (Game.Players g) -> all_cards g' ≡ₚ all_cards g)).
Proof.
  intros Hround. split; [apply dealPunchlines_conserves|].
  split; [by eapply Vote_conserves|].
  intros Hnd.
  destruct (Play_cards g name card r round Hround Hnd)
    as (g' & r' & Heq & Hnd' & Hin & Hnot).
  exists g', r'. split; [done|]. split; [done|]. split; [|done].
  intros Hc. split; [by apply Hin|]. by rewrite <- (Hin Hc).
Qed.

Lemma cards_conserved_except_played_witness :
  exists g' r',
    Play game_two "bob" "b1" rand0 = Ok (g', r') /\
    S (length (all_cards g')) = length (all_cards game_two).
Proof.
  destruct (cards_conserved_except_played game_two "bob" "b1" rand0 Round.zero)
    as (_ & _ & Hplay); [reflexivity|].
  destruct Hplay as (g' & r' & Heq & _ & Hin & _).
  { apply (bool_decide_unpack _). vm_compute. exact I. }
  exists g', r'. split; [exact Heq|].
  apply Hin. apply (bool_decide_unpack _). vm_compute. exact I.
Defined.

(** C3 as stated fails: a play call changes the total number of cards in
    the hands and the pool. *)
Lemma play_changes_card_total :
  exists g' r',
    Play game_two "bob" "b1" rand0 = Ok (g', r') /\
    length (all_cards game_two) = 13%nat /\
    length (all_cards g') = 12%nat.
Proof.
  eexists _, _. split; [vm_compute; reflexivity|]. split; reflexivity.
Qed.

(** ** The removal step of Play *)

Lemma rm_players_removed (card : Card) (ps : list Player.t) :
  Forall (fun p => at_most_once card (Player.Punchlines p)) ps ->
  exists ps', rm_players card ps = Ok ps' /\ Forall2 (removed card) ps ps'.
Proof.
  intros Hone. destruct (rm_players_spec card ps Hone) as (ps' & Heq & HF).
  exists ps'. split; [done|].
  clear Heq. induction HF as [|p p' ps ps' [Hname Hrm] _ IH]; [constructor|].
  apply Forall_cons in Hone as [Hp Hone].
  constructor; [|by apply IH].
  split; [done|]. split.
  - intros Hnot. rewrite rm_hand_absent in Hrm by done. by simplify_eq.
  - intros Hin. destruct (rm_hand_once card _ Hp Hin) as (i & lst & Hi & Hl & Heq).
    exists i, lst. rewrite Heq in Hrm. by simplify_eq.
Qed.

(** C7, as the code has it. The removal step of [Play] does not look at the
    submitting player's name: it scans the hand of every player. A hand that
    does not hold the card is left unchanged; a hand that holds it (once)
    loses it, whoever submitted the card. The refill then runs on the
    result. *)
Theorem Play_removal_scans_every_hand (g : Game.t) (name : string) (card : Card)
    (r : Rand) (round : Round.t) :
  at_index (Game.Rounds g) (wrap (Game.RoundsRemaining g - 1)) = Some round ->
  Forall (fun p => at_most_once card (Player.Punchlines p)) (Game.Players g) ->
  exists ps1 g' r' err,
    rm_players card (Game.Players g) = Ok ps1 /\
    Forall2 (removed card) (Game.Players g) ps1 /\
    dealPunchlines (Game.with_Players (record_play g round name card) ps1) r
    = Ok (g', r', err) /\
    Play g name card r = Ok (g', r').
Proof.
  intros Hround Hone.
  destruct (rm_players_removed card _ Hone) as (ps1 & Hrm & HF).
  destruct (dealPunchlines_spec
              (Game.with_Players (record_play g round name card) ps1) r)
    as (ps' & pool' & r' & err & Hdeal & _).
  eexists ps1, _, r', err. split; [done|]. split; [done|].
  split; [exact Hdeal|].
  unfold Play. rewrite Hround, record_play_Players, Hrm, Hdeal. done.
Qed.

Lemma Play_removal_scans_every_hand_witness :
  exists ps1 g' r',
    Forall2 (removed "b1"%string) (Game.Players game_two) ps1 /\
    Play game_two "bob" "b1" rand0 = Ok (g', r').
Proof.
  destruct (Play_removal_scans_every_hand game_two "bob" "b1" rand0 Round.zero)
    as (ps1 & g' & r' & err & _ & HF & _ & Heq).
  - reflexivity.
  - apply NoDup_hands_at_most_once.
    apply (bool_decide_unpack _). vm_compute. exact I.
  - exists ps1, g', r'. split; [exact HF|exact Heq].
Defined.

(** C7 as stated fails: al submits a card that is not in al's hand but in
    bob's; the removal step takes it out of bob's hand. *)
Lemma Play_removal_changes_other_hand :
  ("b1"%string ∉ ["a1"; "a2"; "a3"; "a4"; "a5"; "a6"]%string) /\
  rm_players "b1" (Game.Players game_two)
  = Ok [Player.mk "al" ["a1"; "a2"; "a3"; "a4"; "a5"; "a6"]%string;
        Player.mk "bob" ["b4"; "b2"; "b3"]%string] /\
  exists g' r',
    Play game_two "al" "b1" rand0 = Ok (g', r') /\
    Game.Players g'
    = [Player.mk "al" ["a1"; "a2"; "a3"; "a4"; "a5"; "a6"]%string;
       Player.mk "bob" ["b4"; "b2"; "b3"; "p1"; "p2"; "p3"]%string].
Proof.
  split; [|split].
  - apply (bool_decide_unpack _). vm_compute. exact I.
  - vm_compute. reflexivity.
  - eexists _, _. split; vm_compute; reflexivity.
Qed.

(** ** AddPlayer *)

Lemma Forall2_refilled_names (ps ps' : list Player.t) :
  Forall2 refilled ps ps' -> map Player.Name ps' = map Player.Name ps.
Proof.
  induction 1 as [|p p' ps ps' [Hn _] _ IH]; [done|]. simpl. by rewrite Hn, IH.
Qed.

(** C8, as the code has it. [AddPlayer] never panics. When it fails because
    the name is taken, the session is untouched. When it fails in the refill,
    the new player stays appended: the players are the old ones followed by
    the new one, those before the first player the pool could not serve keep
    their refilled hands, and the other fields are untouched. *)
Theorem AddPlayer_failure_modes (g : Game.t) (player : Player.t) (r : Rand) :
  exists g' r' err,
    AddPlayer g player r = Ok (g', r', err) /\
    match err with
    | None =>
      name_exists (Game.Players g) (Player.Name player) = false /\
      Forall2 refilled (Game.Players g ++ [player]) (Game.Players g')
    | Some e =>
      (e = ErrPlayerNameExists /\
       name_exists (Game.Players g) (Player.Name player) = true /\
       g' = g /\ r' = r) \/
      (e = ErrTooFewPunchlines /\
       name_exists (Game.Players g) (Player.Name player) = false /\
       map Player.Name (Game.Players g')
       = map Player.Name (Game.Players g) ++ [Player.Name player] /\
       (exists before before' p rest,
          Game.Players g ++ [player] = before ++ p :: rest /\
          Game.Players g' = before' ++ p :: rest /\
          Forall2 refilled before before' /\
          (length (Game.Punchlines g') < deficit p)%nat) /\
       Game.Rounds g' = Game.Rounds g /\
       Game.RoundsRemaining g' = Game.RoundsRemaining g /\
       Game.CurrentAction g' = Game.CurrentAction g)
    end.
Proof.
  unfold AddPlayer.
  destruct (name_exists (Game.Players g) (Player.Name player)) eqn:Hname.
  - exists g, r, (Some ErrPlayerNameExists). split; [done|]. by left.
  - destruct (deal_players_spec (Game.Players g ++ [player]) (Game.Punchlines g) r)
      as (ps' & pool' & r' & err & Hdeal & _ & Herr).
    eexists _, r', err. unfold dealPunchlines. simpl. rewrite Hdeal. simpl.
    split; [reflexivity|].
    destruct err as [e|]; simpl.
    + right. destruct Herr as (-> & before & before' & p & rest & Hps & -> & HF & _ & Hp).
      repeat split; try done.
      * rewrite <- (map_app Player.Name _ [player]), Hps, !map_app. simpl.
        by rewrite (Forall2_refilled_names _ _ HF).
      * by exists before, before', p, rest.
    + destruct Herr as [HF _]. by split.
Qed.

(** C8 as stated fails: the join of bob fails in the refill and leaves bob
    in the player list. *)
Lemma AddPlayer_failed_join_keeps_player :
  exists g' r',
    AddPlayer game_short (Player.mk "bob" []) rand0
    = Ok (g', r', Some ErrTooFewPunchlines) /\
    Game.Players g'
    = Game.Players game_short ++ [Player.mk "bob" []].
Proof. eexists _, _. split; vm_compute; reflexivity. Qed.

(** ** Phase and end of game *)

Lemma wrap_id (z : Z) : in_int z -> wrap z = z.
Proof.
  unfold in_int, int_min, int_max, wrap. intros Hz.
  rewrite Z.mod_small by lia. lia.
Qed.

Lemma at_index_Some {A : Type} (s : list A) (i : Z) :
  0 <= i < Z.of_nat (length s) -> is_Some (at_index s i).
Proof.
  intros Hi. unfold at_index.
  replace (0 <=? i) with true by (symmetry; apply Z.leb_le; lia).
  apply lookup_lt_is_Some_2. lia.
Qed.

Lemma at_index_None {A : Type} (s : list A) (i : Z) :
  i < 0 \/ Z.of_nat (length s) <= i -> at_index s i = None.
Proof.
  intros Hi. unfold at_index. destruct (Z.leb_spec 0 i) as [Hle|Hlt]; [|done].
  apply lookup_ge_None_2. lia.
Qed.

Lemma at_index_lookup {A : Type} (s : list A) (i : Z) (x : A) :
  at_index s i = Some x -> 0 <= i /\ s !! Z.to_nat i = Some x.
Proof.
  unfold at_index. destruct (Z.leb_spec 0 i); [|done]. by split.
Qed.

Lemma Play_Rounds (g : Game.t) (name : string) (card : Card) (r : Rand)
    (round : Round.t) :
  at_index (Game.Rounds g) (wrap (Game.RoundsRemaining g - 1)) = Some round ->
  Forall (fun p => at_most_once card (Player.Punchlines p)) (Game.Players g) ->
  exists g' r',
    Play g name card r = Ok (g', r') /\
    Game.Rounds g'
    = <[Z.to_nat (wrap (Game.RoundsRemaining g - 1)) :=
          Round.with_Plays round (map_store (Round.Plays round) name card)]>
        (Game.Rounds g) /\
    Game.RoundsRemaining g' = Game.RoundsRemaining g /\
    Game.CurrentAction g'
    = (if (map_len (map_store (Round.Plays round) name card)
           =? length (Game.Players g))%nat
       then VOTE else Game.CurrentAction g) /\
    map Player.Name (Game.Players g') = map Player.Name (Game.Players g).
Proof.
  intros Hround Hone.
  destruct (rm_players_spec card _ Hone) as (ps1 & Hrm & HF1).
  destruct (deal_players_spec ps1 (Game.Punchlines g) r)
    as (ps' & pool' & r' & err & Hdeal & _ & Herr).
  eexists _, r'. split.
  { unfold Play. rewrite Hround, record_play_Players, Hrm.
    unfold dealPunchlines. simpl. rewrite record_play_Punchlines, Hdeal.
    simpl. reflexivity. }
  simpl.
  rewrite record_play_Rounds, record_play_RoundsRemaining,
    record_play_CurrentAction.
  repeat split; try done.
  transitivity (map Player.Name ps1).
  - destruct err as [e|].
    + destruct Herr as (_ & before & before' & q & rest & -> & -> & HF & _).
      rewrite !map_app. by rewrite (Forall2_refilled_names _ _ HF).
    + destruct Herr as [HF _]. by apply Forall2_refilled_names.
  - clear -HF1. induction HF1 as [|p p' ps ps' [Hn _] _ IH]; [done|].
    simpl. by rewrite Hn, IH.
Qed.

Lemma Vote_Rounds (g : Game.t) (name : string) (card : Card) (r : Rand)
    (round : Round.t) :
  at_index (Game.Rounds g) (wrap (Game.RoundsRemaining g - 1)) = Some round ->
  exists g' r',
    Vote g name card r = Ok (g', r') /\
    Game.Rounds g'
    = <[Z.to_nat (wrap (Game.RoundsRemaining g - 1)) :=
          Round.with_Votes round (map_store (Round.Votes round) name card)]>
        (Game.Rounds g).
Proof.
  intros Hround. destruct (Vote_spec g name card r round Hround) as [Hne Heq].
  destruct (decide (map_len (map_store (Round.Votes round) name card)
                    = length (Game.Players g))) as [Hlen|Hlen].
  - destruct (Heq Hlen) as (ps' & pool' & r' & err & _ & _ & ->).
    eexists _, r'. split; reflexivity.
  - rewrite (Hne Hlen). eexists _, r. split; reflexivity.
Qed.

(** C1, as the code has it. [Play] and [Vote] do not look at
    [CurrentAction]: whenever the current round exists, [Vote] records the
    vote and [Play] records the card (no hand holding the card twice),
    whatever the phase. With [RoundsRemaining = 0] neither returns an error:
    the index expression [g.Rounds[-1]] panics before anything is written. *)
Theorem Play_Vote_not_gated (g : Game.t) (name : string) (card : Card) (r : Rand) :
  (forall round,
     at_index (Game.Rounds g) (wrap (Game.RoundsRemaining g - 1)) = Some round ->
     (exists g' r',
        Vote g name card r = Ok (g', r') /\
        Game.Rounds g'
        = <[Z.to_nat (wrap (Game.RoundsRemaining g - 1)) :=
              Round.with_Votes round (map_store (Round.Votes round) name card)]>
            (Game.Rounds g)) /\
     (Forall (fun p => at_most_once card (Player.Punchlines p)) (Game.Players g) ->
      exists g' r',
        Play g name card r = Ok (g', r') /\
        Game.Rounds g'
        = <[Z.to_nat (wrap (Game.RoundsRemaining g - 1)) :=
              Round.with_Plays round (map_store (Round.Plays round) name card)]>
            (Game.Rounds g))) /\
  (Game.RoundsRemaining g = 0 ->
   Play g name card r
   = Panic (IndexOutOfRange OfRounds (-1) (length (Game.Rounds g))) (g, r) /\
   Vote g name card r
   = Panic (IndexOutOfRange OfRounds (-1) (length (Game.Rounds g))) (g, r)).
Proof.
  split.
  - intros round Hround. split; [by apply Vote_Rounds|].
    intros Hone.
    destruct (Play_Rounds g name card r round Hround Hone)
      as (g' & r' & Heq & HR & _).
    by exists g', r'.
  - intros H0. unfold Play, Vote. rewrite H0. by split.
Qed.

Lemma Play_Vote_not_gated_witness :
  (exists g' r',
     Play game_voting "al" "a1" rand0 = Ok (g', r') /\
     Game.Rounds g'
     = [Round.mk (EmptyString, EmptyString) (Some {["al"%string := "a1"%string]}) None]) /\
  Play game_over "al" "a1" rand0
  = Panic (IndexOutOfRange OfRounds (-1) 1) (game_over, rand0).
Proof.
  destruct (Play_Vote_not_gated game_voting "al" "a1" rand0) as [Hacc _].
  destruct (Hacc Round.zero) as [_ Hplay]; [reflexivity|].
  destruct Hplay as (g' & r' & Heq & HR).
  { apply NoDup_hands_at_most_once.
    apply (bool_decide_unpack _). vm_compute. exact I. }
  destruct (Play_Vote_not_gated game_over "al" "a1" rand0) as [_ Hover].
  destruct Hover as [Hp _]; [reflexivity|].
  split; [|exact Hp].
  exists g', r'. split; [exact Heq|]. rewrite HR. reflexivity.
Defined.

(** C1 as stated fails: a play call is accepted, and recorded, while the
    phase is Voting, and a vote call while the phase is Playing. *)
Lemma Play_accepted_while_voting :
  Game.CurrentAction game_voting = VOTE /\
  Game.CurrentAction game_two = PLAY /\
  (exists g' r',
     Play game_voting "al" "a1" rand0 = Ok (g', r') /\
     map Round.Plays (Game.Rounds g')
     = [Some {["al"%string := "a1"%string]}]) /\
  (exists g' r',
     Vote game_two "al" "b1" rand0 = Ok (g', r') /\
     map Round.Votes (Game.Rounds g')
     = [Some {["al"%string := "b1"%string]}]).
Proof.
  split; [reflexivity|]. split; [reflexivity|]. split.
  - eexists _, _. split; [vm_compute; reflexivity|]. reflexivity.
  - eexists _, _. split; [vm_compute; reflexivity|]. reflexivity.
Qed.

(** ** Index safety of the rounds slice *)

Lemma rm_scan_panic (card : Card) (todo j : nat) (arr : list Card) (n : nat)
    (e : panic) (st : list Card * nat) :
  rm_scan card todo j arr n = Panic e st -> index_panic_on OfHand e.
Proof.
  revert j arr n. induction todo as [|todo IH]; intros j arr n; simpl; [done|].
  repeat case_match; intros Heq; simplify_eq; try done; by eapply IH.
Qed.

Lemma rm_players_panic (card : Card) (ps : list Player.t) (e : panic)
    (st : list Player.t) :
  rm_players card ps = Panic e st -> index_panic_on OfHand e.
Proof.
  revert st. induction ps as [|p ps IH]; intros st; simpl; [done|].
  unfold rm_hand.
  destruct (rm_scan card _ 0 _ _) as [[arr n]|e' [arr n]] eqn:Hscan.
  - destruct (rm_players card ps) as [ps'|e' ps'] eqn:Hps; [done|].
    intros Heq. simplify_eq. by eapply IH.
  - intros Heq. simplify_eq. by eapply rm_scan_panic.
Qed.

Lemma Play_panic_cases (g : Game.t) (name : string) (card : Card) (r : Rand)
    (round : Round.t) (e : panic) (st : Game.t * Rand) :
  at_index (Game.Rounds g) (wrap (Game.RoundsRemaining g - 1)) = Some round ->
  Play g name card r = Panic e st -> index_panic_on OfHand e.
Proof.
  intros Hround. unfold Play. rewrite Hround.
  destruct (rm_players card _) as [ps|e' ps] eqn:Hrm.
  - destruct (dealPunchlines_spec
                (Game.with_Players (record_play g round name card) ps) r)
      as (ps' & pool' & r' & err & -> & _). done.
  - intros Heq. simplify_eq. by eapply rm_players_panic.
Qed.

Lemma round_index_wrap (g : Game.t) :
  int_typed g ->
  (round_in_range g ->
   wrap (Game.RoundsRemaining g - 1) = Game.RoundsRemaining g - 1) /\
  (~ round_in_range g ->
   at_index (Game.Rounds g) (wrap (Game.RoundsRemaining g - 1)) = None).
Proof.
  unfold int_typed, round_in_range, in_int, int_min, int_max.
  intros [Hrr Hlen]. split.
  - intros Hin. apply wrap_id. unfold in_int, int_min, int_max. lia.
  - intros Hout. apply at_index_None.
    destruct (decide (Game.RoundsRemaining g = - 2 ^ 63)) as [->|Hne].
    + right. unfold wrap. change (- 2 ^ 63 - 1 + 2 ^ 63) with (-1).
      change (-1 mod 2 ^ 64 - 2 ^ 63) with (2 ^ 63 - 1). lia.
    + rewrite wrap_id by (unfold in_int, int_min, int_max; lia). lia.
Qed.

(** C10. For a session as the Go types allow it, [1 <= RoundsRemaining <=
    len(Rounds)] is exactly the condition under which [Play] and [Vote]
    index the rounds slice in bounds: under it the index is
    [RoundsRemaining - 1], it is within the slice, [Vote] returns and [Play]
    raises no index panic on the rounds slice; without it both panic on
    their first statement, on the rounds slice, before any write. *)
Theorem round_index_safety (g : Game.t) (name : string) (card : Card) (r : Rand) :
  int_typed g ->
  (round_in_range g ->
   wrap (Game.RoundsRemaining g - 1) = Game.RoundsRemaining g - 1 /\
   (Z.to_nat (Game.RoundsRemaining g - 1) < length (Game.Rounds g))%nat /\
   is_Some (at_index (Game.Rounds g) (Game.RoundsRemaining g - 1)) /\
   (exists g' r', Vote g name card r = Ok (g', r')) /\
   (forall e st, Play g name card r = Panic e st -> ~ index_panic_on OfRounds e)) /\
  (~ round_in_range g ->
   Play g name card r
   = Panic (IndexOutOfRange OfRounds (wrap (Game.RoundsRemaining g - 1))
              (length (Game.Rounds g))) (g, r) /\
   Vote g name card r
   = Panic (IndexOutOfRange OfRounds (wrap (Game.RoundsRemaining g - 1))
              (length (Game.Rounds g))) (g, r)).
Proof.
  intros Hty. destruct (round_index_wrap g Hty) as [Hin Hout]. split.
  - intros Hrange. pose proof (Hin Hrange) as Hw.
    assert (Hsome : is_Some (at_index (Game.Rounds g) (Game.RoundsRemaining g - 1))).
    { apply at_index_Some. unfold round_in_range in Hrange. lia. }
    destruct Hsome as [round Hround].
    split; [done|]. split; [unfold round_in_range in Hrange; lia|].
    split; [by exists round|]. rewrite <- Hw in Hround. split.
    + destruct (Vote_Rounds g name card r round Hround) as (g' & r' & Heq & _).
      by exists g', r'.
    + intros e st Hp Hon.
      pose proof (Play_panic_cases g name card r round e st Hround Hp) as Hhand.
      destruct e; simpl in *; congruence.
  - intros Hrange. unfold Play, Vote. by rewrite (Hout Hrange).
Qed.

Lemma round_index_safety_witness :
  (exists g' r', Vote game_two "al" "b1" rand0 = Ok (g', r')) /\
  Play game_over "al" "a1" rand0
  = Panic (IndexOutOfRange OfRounds (-1) 1) (game_over, rand0).
Proof.
  assert (Hty : forall g, Game.RoundsRemaining g = 1 \/ Game.RoundsRemaining g = 0 ->
                          length (Game.Rounds g) = 1%nat -> int_typed g).
  { intros g Hrr Hlen. unfold int_typed, in_int, int_min, int_max.
    rewrite Hlen. lia. }
  split.
  - destruct (round_index_safety game_two "al" "b1" rand0) as [Hin _].
    { apply Hty; [by left|reflexivity]. }
    destruct Hin as (_ & _ & _ & Hvote & _); [|exact Hvote].
    unfold round_in_range. simpl. lia.
  - destruct (round_index_safety game_over "al" "a1" rand0) as [_ Hout].
    { apply Hty; [by right|reflexivity]. }
    destruct Hout as [Hp _]; [|exact Hp].
    unfold round_in_range. simpl. lia.
Defined.

(** The precondition on the round counter does not make [Play] free of
    every index panic: the scan of a hand that holds the card twice, the
    second copy last, indexes the shrunk hand out of range. *)
Lemma Play_hand_scan_panic :
  round_in_range game_twice /\
  exists st,
    Play game_twice "al" "x" rand0 = Panic (IndexOutOfRange OfHand 2 2) st.
Proof.
  split; [unfold round_in_range; simpl; lia|].
  eexists. vm_compute. reflexivity.
Qed.

(** ** The phase cycle *)

Lemma at_index_insert {A : Type} (s : list A) (i : Z) (x y : A) :
  at_index s i = Some x -> at_index (<[Z.to_nat i := y]> s) i = Some y.
Proof.
  intros Hx. destruct (at_index_lookup s i x Hx) as [Hi Hl].
  unfold at_index. replace (0 <=? i) with true by (symmetry; apply Z.leb_le; lia).
  apply list_lookup_insert_eq. by eapply lookup_lt_Some.
Qed.

Lemma map_len_store (m : option (gmap string Card)) (name : string) (card : Card) :
  map_len (map_store m name card) = size ({[name]} ∪ entered m).
Proof.
  unfold map_len, map_store, entered.
  by rewrite <- (dom_insert_L (default ∅ m) name card), size_dom.
Qed.

Lemma entered_store (m : option (gmap string Card)) (name : string) (card : Card) :
  entered (map_store m name card) = {[name]} ∪ entered m.
Proof. unfold map_store, entered. simpl. apply dom_insert_L. Qed.

Lemma Play_step (g : Game.t) (name : string) (card : Card) (r : Rand)
    (round : Round.t) :
  at_index (Game.Rounds g) (wrap (Game.RoundsRemaining g - 1)) = Some round ->
  NoDup (all_cards g) ->
  exists g' r',
    Play g name card r = Ok (g', r') /\
    at_index (Game.Rounds g') (wrap (Game.RoundsRemaining g' - 1))
    = Some (Round.with_Plays round (map_store (Round.Plays round) name card)) /\
    Game.RoundsRemaining g' = Game.RoundsRemaining g /\
    length (Game.Players g') = length (Game.Players g) /\
    NoDup (all_cards g') /\
    Game.CurrentAction g'
    = (if (size ({[name]} ∪ entered (Round.Plays round))
           =? length (Game.Players g))%nat
       then VOTE else Game.CurrentAction g).
Proof.
  intros Hround Hnd.
  destruct (Play_cards g name card r round Hround Hnd)
    as (g' & r' & Heq & Hnd' & _).
  destruct (Play_Rounds g name card r round Hround)
    as (g2 & r2 & Heq2 & HR & HRR & HCA & Hnames).
  { apply NoDup_hands_at_most_once. unfold all_cards in Hnd.
    by apply NoDup_app in Hnd as (? & _ & _). }
  rewrite Heq in Heq2. simplify_eq.
  exists g2, r2. split; [done|].
  rewrite HRR, HR, HCA, map_len_store.
  split; [by eapply at_index_insert|]. split; [done|].
  split; [|by split].
  by rewrite <- (length_map Player.Name), Hnames, length_map.
Qed.





(** ** The card filter *)


Lemma isCleanEnough_on_scale (cardCleanliness cleanliness : string) (k t : Z) :
  ranks !! cardCleanliness = Some k -> ranks !! cleanliness = Some t ->
  isCleanEnough cardCleanliness cleanliness = (k <=? t, None).
Proof.
  intros Hk Ht. unfold isCleanEnough. rewrite Hk, Ht. by destruct (k <=? t).
Qed.

Lemma isCleanEnough_off_scale (cardCleanliness cleanliness : string) :
  ranks !! cardCleanliness = None ->
  isCleanEnough cardCleanliness cleanliness = (false, Some ErrMalformedCSV).
Proof. intros Hk. unfold isCleanEnough. by rewrite Hk. Qed.

Section CardFilter.
Variable TrimSpace : string -> string.



End CardFilter.


(** ** Id allocation *)

Lemma findID_loop_S (attempts i : nat) (games : gmap Z (option Game.t))
    (clock : nat -> Z) (r : Rand) :
  findID_loop (S attempts) i games clock r
  = match Intn r 99 with
    | None => Panic IntnInvalidArgument (games, r, 0, None)
    | Some (n, r') =>
      match games !! Z.of_nat n with
      | None => Ok (games, r', Z.of_nat n, None)
      | Some None => Panic NilDereference (games, r', Z.of_nat n, None)
      | Some (Some game) =>
        if clock i <? Game.Created game + hour * 12
        then Ok (<[Z.of_nat n := None]> games, r', Z.of_nat n, None)
        else findID_loop attempts (S i) games clock r'
      end
    end.
Proof. reflexivity. Qed.

(** The first probe of an id whose session is younger than twelve hours
    returns that id and replaces the session by nil. *)
Lemma findID_takes_young (games : gmap Z (option Game.t)) (clock : nat -> Z)
    (r r' : Rand) (n : nat) (game : Game.t) :
  Intn r 99 = Some (n, r') ->
  games !! Z.of_nat n = Some (Some game) ->
  clock O < Game.Created game + hour * 12 ->
  findID games clock r = Ok (<[Z.of_nat n := None]> games, r', Z.of_nat n, None).
Proof.
  intros Hn Hg Hyoung. unfold findID, maxAttempts.
  rewrite (findID_loop_S 99), Hn, Hg.
  replace (clock O <? Game.Created game + hour * 12) with true
    by (symmetry; apply Z.ltb_lt; lia).
  done.
Qed.

(** A registry whose ids all hold sessions of twelve hours or more is never
    reclaimed: every probe is skipped and the allocation fails. *)
Lemma findID_loop_skips_old (attempts i : nat) (games : gmap Z (option Game.t))
    (clock : nat -> Z) (r : Rand) :
  (forall id k, 0 <= id < 99 ->
     exists game, games !! id = Some (Some game) /\
                  Game.Created game + hour * 12 <= clock k) ->
  findID_loop attempts i games clock r
  = Ok (games, mkRand (raw r) (pos r + attempts), 0, Some ErrNoGamesAvailable).
Proof.
  intros Hold. revert i r. induction attempts as [|attempts IH]; intros i r.
  - simpl. rewrite Nat.add_0_r. by destruct r.
  - rewrite findID_loop_S.
    destruct (Intn_Some r 99) as (n & Hn & ->); [lia|].
    destruct (Hold (Z.of_nat n) i) as (game & -> & Hexp); [lia|].
    replace (clock i <? Game.Created game + hour * 12) with false
      by (symmetry; apply Z.ltb_ge; lia).
    rewrite IH. simpl. by rewrite Nat.add_succ_r.
Qed.

(** C4 fails on the code. With the id space saturated by sessions created
    one hour earlier, the allocation does not fail: it returns the id of the
    first probe and puts nil in place of that live session. With the same
    sessions thirteen hours old it reclaims nothing and fails with
    [ErrNoGamesAvailable]: the expiry test is the wrong way round. *)
Theorem findID_reclaims_live_not_expired :
  (exists games' r',
     findID (games_full 0) (fun _ => hour) rand0 = Ok (games', r', 0, None) /\
     games_full 0 !! 0 = Some (Some (Game.mk 0 [] [] [] 0 PLAY 0)) /\
     games' !! 0 = Some None) /\
  (exists r',
     findID (games_full 0) (fun _ => hour * 13) rand0
     = Ok (games_full 0, r', 0, Some ErrNoGamesAvailable)).
Proof.
  split.
  - exists (<[0 := None]> (games_full 0)), (mkRand (raw rand0) 1).
    split; [|split].
    + apply (findID_takes_young (games_full 0) (fun _ => hour) rand0 _ O
               (Game.mk 0 [] [] [] 0 PLAY 0)).
      * reflexivity.
      * vm_compute. reflexivity.
      * vm_compute. reflexivity.
    + vm_compute. reflexivity.
    + apply lookup_insert_eq.
  - eexists. unfold findID. apply findID_loop_skips_old.
    intros id k Hid.
    assert (Hn : exists n, (n < 99)%nat /\ id = Z.of_nat n).
    { exists (Z.to_nat id). lia. }
    destruct Hn as (n & Hn & ->).
    exists (Game.mk (Z.of_nat n) [] [] [] 0 PLAY 0). split; [|vm_compute; discriminate].
    unfold games_full.
    apply elem_of_list_to_map_1.
    + rewrite <- list_fmap_compose.
      apply NoDup_fmap_2_strong; [|apply NoDup_seq].
      intros a b _ _ Hab. simpl in Hab. lia.
    + apply list_elem_of_fmap. exists n. split; [done|].
      apply elem_of_seq. lia.
Qed.

(** ** createRounds *)

Lemma createRounds_loop_eq (fuel : nat) (setups : list Card) (setupsNeeded : Z)
    (i : nat) (setupsMap : gmap nat Card) (rounds : list Round.t) (r : Rand) :
  createRounds_loop fuel setups setupsNeeded i setupsMap rounds r
  = if setupsNeeded <=? Z.of_nat i then Some (Ok (rounds, r))
    else
      match fuel with
      | O => None
      | S fuel' =>
        match Intn r (length setups) with
        | None => Some (Panic IntnInvalidArgument (rounds, r))
        | Some (index, r') =>
          match setupsMap !! index with
          | Some _ => createRounds_loop fuel' setups setupsNeeded i setupsMap rounds r'
          | None =>
            match setups !! index with
            | None =>
              Some (Panic (IndexOutOfRange OfSetups (Z.of_nat index) (length setups))
                      (rounds, r'))
            | Some c =>
              match rounds !! (i / 2)%nat with
              | None =>
                Some (Panic (IndexOutOfRange OfRounds (Z.of_nat (i / 2)) (length rounds))
                        (rounds, r'))
              | Some round =>
                createRounds_loop fuel' setups setupsNeeded (S i)
                  (<[index := c]> setupsMap)
                  (<[(i / 2)%nat :=
                       Round.with_Setup round
                         (set_setup (Round.Setup round) (i mod 2) c)]> rounds) r'
              end
            end
          end
        end
      end.
Proof. by destruct fuel. Qed.

Lemma half_parity (q i : nat) :
  (q / 2 = i / 2)%nat -> (q mod 2 = i mod 2)%nat -> q = i.
Proof.
  intros Hd Hm.
  rewrite (Nat.div_mod_eq q 2), (Nat.div_mod_eq i 2). lia.
Qed.

Lemma parity_cases (q : nat) : (q mod 2 = 0 \/ q mod 2 = 1)%nat.
Proof. pose proof (Nat.mod_upper_bound q 2). lia. Qed.

Lemma slot_insert_same (rounds : list Round.t) (i : nat) (round : Round.t) (c : Card) :
  rounds !! (i / 2)%nat = Some round ->
  slot (<[(i / 2)%nat :=
            Round.with_Setup round (set_setup (Round.Setup round) (i mod 2) c)]>
          rounds) i
  = Some c.
Proof.
  intros Hr. unfold slot.
  rewrite list_lookup_insert_eq by (by eapply lookup_lt_Some).
  destruct (parity_cases i) as [-> | ->]; reflexivity.
Qed.

Lemma slot_insert_other (rounds : list Round.t) (i q : nat) (round : Round.t)
    (c : Card) :
  q <> i ->
  rounds !! (i / 2)%nat = Some round ->
  slot (<[(i / 2)%nat :=
            Round.with_Setup round (set_setup (Round.Setup round) (i mod 2) c)]>
          rounds) q
  = slot rounds q.
Proof.
  intros Hne Hr. unfold slot.
  destruct (decide (q / 2 = i / 2)%nat) as [Heq|Hdiff].
  - rewrite Heq, Hr.
    rewrite list_lookup_insert_eq by (by eapply lookup_lt_Some).
    f_equal.
    destruct (parity_cases q) as [Hq|Hq], (parity_cases i) as [Hi|Hi];
      rewrite Hq, Hi; try reflexivity;
      exfalso; apply Hne, half_parity; congruence.
  - by rewrite list_lookup_insert_ne.
Qed.

Lemma Plays_insert_Setup (rounds : list Round.t) (k : nat) (round : Round.t)
    (setup : Card * Card) :
  rounds !! k = Some round ->
  map Round.Plays (<[k := Round.with_Setup round setup]> rounds)
  = map Round.Plays rounds /\
  map Round.Votes (<[k := Round.with_Setup round setup]> rounds)
  = map Round.Votes rounds.
Proof.
  intros Hr. split.
  - change (Round.Plays <$> <[k := Round.with_Setup round setup]> rounds
            = Round.Plays <$> rounds).
    rewrite list_fmap_insert. apply list_insert_id.
    by rewrite list_lookup_fmap, Hr.
  - change (Round.Votes <$> <[k := Round.with_Setup round setup]> rounds
            = Round.Votes <$> rounds).
    rewrite list_fmap_insert. apply list_insert_id.
    by rewrite list_lookup_fmap, Hr.
Qed.

(** The loop never panics; it stops only when [needed] indices are accepted;
    and it runs out of draws only if the draws did not contain enough
    indices that were still new. *)
Lemma createRounds_loop_spec (setups : list Card) (needed fuel : nat) :
  forall (i : nat) (setupsMap : gmap nat Card) (rounds : list Round.t) (r : Rand)
         (picks : list nat),
    length picks = i ->
    picked setups setupsMap rounds picks ->
    (i <= needed)%nat ->
    (needed <= 2 * length rounds)%nat ->
    (needed <= length setups)%nat ->
    match createRounds_loop fuel setups (Z.of_nat needed) i setupsMap rounds r with
    | None =>
      (size ((list_to_set (draws r (length setups) fuel) : gset nat)
             ∖ dom setupsMap) < needed - i)%nat
    | Some (Panic _ _) => False
    | Some (Ok (rounds', r')) =>
      length rounds' = length rounds /\
      map Round.Plays rounds' = map Round.Plays rounds /\
      map Round.Votes rounds' = map Round.Votes rounds /\
      exists setupsMap' picks',
        length picks' = needed /\ picked setups setupsMap' rounds' picks'
    end.
Proof.
  induction fuel as [|fuel IH];
    intros i setupsMap rounds r picks Hlen Hpicked Hi Hrounds Hsetups;
    rewrite createRounds_loop_eq;
    (destruct (Z.leb_spec (Z.of_nat needed) (Z.of_nat i)) as [Hdone|Hmore];
     [repeat split; try done; exists setupsMap, picks; split; [lia|done]|]).
  - simpl.
    replace ((∅ : gset nat) ∖ dom setupsMap) with (∅ : gset nat) by set_solver.
    rewrite size_empty. lia.
  - destruct (Intn_Some r (length setups)) as (index & Hindex & Hintn); [lia|].
    assert (Hhead : index = (raw r (pos r) mod length setups)%nat).
    { destruct (length setups); [lia|]. simpl in Hintn. by simplify_eq. }
    rewrite Hintn.
    destruct Hpicked as (Hnd & Hdom & Hslots).
    assert (Hdraws : draws r (length setups) (S fuel)
                     = index :: draws (mkRand (raw r) (S (pos r))) (length setups) fuel)
      by (by rewrite Hhead).
    set (r1 := mkRand (raw r) (S (pos r))) in *.
    destruct (setupsMap !! index) as [c0|] eqn:Hseen.
    + specialize (IH i setupsMap rounds r1 picks Hlen
                     (conj Hnd (conj Hdom Hslots)) Hi Hrounds Hsetups).
      destruct (createRounds_loop fuel _ _ _ _ _ _) as [[[rounds' r']|e st]|];
        try done.
      rewrite Hdraws.
      assert (Hin : index ∈ dom setupsMap) by (apply elem_of_dom; eauto).
      replace ((list_to_set (index :: draws r1 (length setups) fuel) : gset nat)
               ∖ dom setupsMap)
        with ((list_to_set (draws r1 (length setups) fuel) : gset nat)
              ∖ dom setupsMap)
        by (simpl; set_solver).
      done.
    + destruct (lookup_lt_is_Some_2 setups index Hindex) as [c Hc]. rewrite Hc.
      destruct (lookup_lt_is_Some_2 rounds (i / 2)) as [round Hround].
      { pose proof (Nat.div_mod_eq i 2). pose proof (Nat.mod_upper_bound i 2). lia. }
      rewrite Hround.
      assert (Hfresh : index ∉ picks).
      { intros Hin. apply Hdom in Hin. rewrite Hseen in Hin. by destruct Hin. }
      set (rounds1 := <[(i / 2)%nat := Round.with_Setup round
                          (set_setup (Round.Setup round) (i mod 2) c)]> rounds).
      destruct (Plays_insert_Setup rounds (i / 2) round
                  (set_setup (Round.Setup round) (i mod 2) c) Hround)
        as [HPlays HVotes].
      assert (Hlen1 : length (picks ++ [index]) = S i).
      { rewrite length_app. simpl. lia. }
      assert (Hpicked1 : picked setups (<[index := c]> setupsMap) rounds1
                           (picks ++ [index])).
      { split; [|split].
        - apply NoDup_app. repeat split; [done| |apply NoDup_singleton].
          intros x Hx Hx'. apply list_elem_of_singleton in Hx'. by subst.
        - intros x. rewrite lookup_insert_is_Some, elem_of_app, list_elem_of_singleton.
          rewrite <- Hdom. destruct (decide (index = x)); naive_solver.
        - intros q idx Hq. apply lookup_app_Some in Hq as [Hq|[Hge Hq]].
          + unfold rounds1. rewrite slot_insert_other; [by apply Hslots| |done].
            apply lookup_lt_Some in Hq. lia.
          + apply list_lookup_singleton_Some in Hq as [Hq <-].
            assert (q = i) as -> by lia.
            unfold rounds1. rewrite slot_insert_same by done. by rewrite Hc. }
      assert (Hlenr : length rounds1 = length rounds)
        by (unfold rounds1; apply length_insert).
      specialize (IH (S i) (<[index := c]> setupsMap) rounds1 r1 (picks ++ [index])
                     Hlen1 Hpicked1).
      rewrite Hlenr in IH.
      specialize (IH ltac:(lia) Hrounds Hsetups).
      destruct (createRounds_loop fuel _ _ _ _ _ _) as [[[rounds' r']|e st]|];
        try done.
      * destruct IH as (Hl & HP & HV & Hex).
        split; [done|]. split; [by rewrite HP|]. split; [by rewrite HV|]. done.
      * rewrite Hdraws.
        assert (Hsz :
          (size ((list_to_set (index :: draws r1 (length setups) fuel) : gset nat)
                 ∖ dom setupsMap)
           <= 1 + size ((list_to_set (draws r1 (length setups) fuel) : gset nat)
                        ∖ dom (<[index := c]> setupsMap)))%nat).
        { etransitivity;
            [apply (subseteq_size _
                      ({[index]} ∪ ((list_to_set (draws r1 (length setups) fuel)
                                     : gset nat)
                                    ∖ dom (<[index := c]> setupsMap))))|].
          - rewrite dom_insert_L. simpl. intros x.
            rewrite !elem_of_difference, !elem_of_union, elem_of_difference,
              elem_of_union, elem_of_singleton.
            destruct (decide (x = index)); naive_solver.
          - rewrite size_union_alt, size_singleton.
            apply Nat.add_le_mono_l, subseteq_size. set_solver. }
        lia.
Qed.

Lemma setup_cards_lookup (rounds : list Round.t) (q : nat) :
  setup_cards rounds !! q = slot rounds q.
Proof.
  revert q. induction rounds as [|round rounds IH]; intros q.
  - unfold slot. by rewrite !lookup_nil.
  - destruct q as [|[|q]]; [reflexivity|reflexivity|].
    change (setup_cards (round :: rounds) !! S (S q)) with (setup_cards rounds !! q).
    rewrite IH. unfold slot.
    replace (S (S q)) with (q + 1 * 2)%nat by lia.
    rewrite Nat.div_add by lia. rewrite Nat.Div0.mod_add.
    replace (q / 2 + 1)%nat with (S (q / 2)) by lia. done.
Qed.

Lemma setup_cards_length (rounds : list Round.t) :
  length (setup_cards rounds) = (2 * length rounds)%nat.
Proof.
  induction rounds as [|round rounds IH]; [done|].
  change (length (setup_cards (round :: rounds)))
    with (S (S (length (setup_cards rounds)))).
  rewrite IH. simpl. lia.
Qed.

Lemma picked_NoDup (setups : list Card) (setupsMap : gmap nat Card)
    (rounds : list Round.t) (picks : list nat) :
  length picks = (2 * length rounds)%nat ->
  picked setups setupsMap rounds picks ->
  NoDup setups -> NoDup (setup_cards rounds).
Proof.
  intros Hlen (Hnd & _ & Hslots) Hsetups.
  apply NoDup_alt. intros q1 q2 x Hq1 Hq2.
  assert (Hpick : forall q, setup_cards rounds !! q = Some x ->
                    exists index, picks !! q = Some index /\ setups !! index = Some x).
  { intros q Hq. destruct (lookup_lt_is_Some_2 picks q) as [index Hindex].
    - apply lookup_lt_Some in Hq. rewrite setup_cards_length in Hq. lia.
    - exists index. split; [done|].
      destruct (Hslots q index Hindex) as [_ Hslot].
      by rewrite <- Hslot, <- setup_cards_lookup. }
  destruct (Hpick q1 Hq1) as (i1 & Hp1 & Hs1).
  destruct (Hpick q2 Hq2) as (i2 & Hp2 & Hs2).
  assert (i1 = i2) as -> by exact (NoDup_lookup setups i1 i2 x Hsetups Hs1 Hs2).
  exact (NoDup_lookup picks q1 q2 i2 Hnd Hp1 Hp2).
Qed.

Lemma make_Rounds_max_val : make_Rounds_max = 5864062014805.
Proof. reflexivity. Qed.

Lemma fresh_rounds (rounds : list Round.t) (n : nat) :
  map Round.Plays rounds = map Round.Plays (replicate n Round.zero) ->
  map Round.Votes rounds = map Round.Votes (replicate n Round.zero) ->
  Forall (fun round => Round.Plays round = None /\ Round.Votes round = None) rounds.
Proof.
  intros HP HV. apply Forall_lookup. intros k round Hk.
  assert (HPk : map Round.Plays rounds !! k = Some (Round.Plays round)).
  { change (map Round.Plays rounds) with (Round.Plays <$> rounds).
    by rewrite list_lookup_fmap, Hk. }
  assert (HVk : map Round.Votes rounds !! k = Some (Round.Votes round)).
  { change (map Round.Votes rounds) with (Round.Votes <$> rounds).
    by rewrite list_lookup_fmap, Hk. }
  rewrite HP in HPk. rewrite HV in HVk.
  change (map Round.Plays (replicate n Round.zero))
    with (Round.Plays <$> replicate n Round.zero) in HPk.
  change (map Round.Votes (replicate n Round.zero))
    with (Round.Votes <$> replicate n Round.zero) in HVk.
  rewrite fmap_replicate in HPk, HVk.
  apply lookup_replicate in HPk as [HPk _].
  apply lookup_replicate in HVk as [HVk _].
  simpl in *. by split.
Qed.

(** What [createRounds] does for a round count that [make] accepts. *)
Lemma createRounds_spec (fuel : nat) (g : Game.t) (setups : list Card)
    (r : Rand) :
  0 <= Game.RoundsRemaining g <= make_Rounds_max ->
  (Z.of_nat (length setups) < Game.RoundsRemaining g * 2 ->
   createRounds fuel g setups r = Some (Ok (g, r, Some ErrTooFewSetups))) /\
  (Game.RoundsRemaining g * 2 <= Z.of_nat (length setups) ->
   ((Z.to_nat (Game.RoundsRemaining g * 2)
     <= size (list_to_set (draws r (length setups) fuel) : gset nat))%nat ->
    is_Some (createRounds fuel g setups r)) /\
   (forall res,
      createRounds fuel g setups r = Some res ->
      exists rounds r',
        res = Ok (Game.with_Rounds g rounds, r', None) /\
        Z.of_nat (length rounds) = Game.RoundsRemaining g /\
        Forall (fun round => Round.Plays round = None /\ Round.Votes round = None)
               rounds /\
        (exists setupsMap picks,
           length picks = (2 * length rounds)%nat /\
           picked setups setupsMap rounds picks) /\
        (NoDup setups -> NoDup (setup_cards rounds)))).
Proof.
  intros [Hlo Hhi]. rewrite make_Rounds_max_val in Hhi.
  assert (Hwrap : wrap (Game.RoundsRemaining g * 2) = Game.RoundsRemaining g * 2).
  { apply wrap_id. unfold in_int, int_min, int_max. lia. }
  unfold createRounds. rewrite Hwrap. split.
  - intros Hfew.
    by replace (Z.of_nat (length setups) <? Game.RoundsRemaining g * 2) with true
      by (symmetry; apply Z.ltb_lt; lia).
  - intros Hok.
    replace (Z.of_nat (length setups) <? Game.RoundsRemaining g * 2) with false
      by (symmetry; apply Z.ltb_ge; lia).
    unfold make_Rounds. rewrite make_Rounds_max_val.
    replace (Game.RoundsRemaining g <? 0) with false
      by (symmetry; apply Z.ltb_ge; lia).
    replace (5864062014805 <? Game.RoundsRemaining g) with false
      by (symmetry; apply Z.ltb_ge; lia).
    simpl orb. cbv iota.
    set (n := Z.to_nat (Game.RoundsRemaining g)).
    set (needed := Z.to_nat (Game.RoundsRemaining g * 2)).
    assert (Hneeded : Game.RoundsRemaining g * 2 = Z.of_nat needed)
      by (unfold needed; lia).
    rewrite Hneeded.
    pose proof (createRounds_loop_spec setups needed fuel O ∅
                  (replicate n Round.zero) r []) as Hloop.
    rewrite length_replicate in Hloop.
    specialize (Hloop eq_refl).
    assert (Hinit : picked setups ∅ (replicate n Round.zero) []).
    { split; [constructor|]. split.
      - intros x. rewrite lookup_empty. split; [by intros []|by inversion 1].
      - intros q index Hq. by rewrite lookup_nil in Hq. }
    specialize (Hloop Hinit ltac:(lia) ltac:(unfold n, needed; lia)
                        ltac:(unfold needed; lia)).
    rewrite dom_empty_L, difference_empty_L, Nat.sub_0_r in Hloop.
    destruct (createRounds_loop fuel setups (Z.of_nat needed) 0 ∅
                (replicate n Round.zero) r)
      as [[[rounds' r']|e st]|]; [|done|].
    + split; [by eauto|].
      intros res Hres. simplify_eq.
      destruct Hloop as (Hlen & HP & HV & setupsMap' & picks' & Hpl & Hpicked).
      exists rounds', r'. split; [done|].
      assert (Hlen2 : length picks' = (2 * length rounds')%nat)
        by (rewrite Hpl, Hlen; unfold n, needed; lia).
      split; [rewrite Hlen; unfold n; lia|].
      split; [by eapply fresh_rounds|].
      split; [by exists setupsMap', picks'|].
      by eapply picked_NoDup.
    + split; [intros Hfair; lia|]. intros res Hres. done.
Qed.

(** C5, as the code has it. For a round count [r] that [make] accepts:
    [createRounds] returns [ErrTooFewSetups] exactly when [len(cards) < r*2];
    otherwise it never panics, it returns as soon as the random source has
    produced [r*2] different indices, and what it returns is [r] rounds with
    nil plays and votes whose [2r] positions hold the cards at [2r] different
    indices of [cards]. The cards themselves are pairwise different when
    [cards] has no duplicate. *)
Theorem createRounds_contract (fuel : nat) (g : Game.t) (setups : list Card)
    (r : Rand) :
  0 <= Game.RoundsRemaining g <= make_Rounds_max ->
  (Z.of_nat (length setups) < Game.RoundsRemaining g * 2 ->
   createRounds fuel g setups r = Some (Ok (g, r, Some ErrTooFewSetups))) /\
  (Game.RoundsRemaining g * 2 <= Z.of_nat (length setups) ->
   ((Z.to_nat (Game.RoundsRemaining g * 2)
     <= size (list_to_set (draws r (length setups) fuel) : gset nat))%nat ->
    is_Some (createRounds fuel g setups r)) /\
   (forall res,
      createRounds fuel g setups r = Some res ->
      exists rounds r',
        res = Ok (Game.with_Rounds g rounds, r', None) /\
        Z.of_nat (length rounds) = Game.RoundsRemaining g /\
        Forall (fun round => Round.Plays round = None /\ Round.Votes round = None)
               rounds /\
        (exists setupsMap picks,
           length picks = (2 * length rounds)%nat /\
           picked setups setupsMap rounds picks) /\
        (NoDup setups -> NoDup (setup_cards rounds)))).
Proof.
  exact (createRounds_spec fuel g setups r).
Qed.

Lemma createRounds_contract_witness :
  exists rounds r',
    createRounds 6 game_three six_setups rand0
    = Some (Ok (Game.with_Rounds game_three rounds, r', None)) /\
    Z.of_nat (length rounds) = 3 /\
    NoDup (setup_cards rounds).
Proof.
  destruct (createRounds_contract 6 game_three six_setups rand0) as [_ Hok].
  { split; vm_compute; discriminate. }
  destruct Hok as [Hends Hres]; [vm_compute; discriminate|].
  destruct Hends as [res Heq]; [vm_compute; lia|].
  destruct (Hres res Heq) as (rounds & r' & -> & Hlen & _ & _ & Hnd).
  exists rounds, r'. split; [exact Heq|]. split; [exact Hlen|].
  apply Hnd. apply (bool_decide_unpack _). vm_compute. exact I.
Defined.

(** C5 as stated fails: from a catalogue that holds the same text twice,
    the round that [createRounds] builds holds two equal cards, whatever the
    random source. *)
Lemma createRounds_equal_cards :
  (exists g' r',
     createRounds 2 game_one twin_setups rand0 = Some (Ok (g', r', None)) /\
     map Round.Setup (Game.Rounds g') = [("a"%string, "a"%string)]) /\
  (forall fuel r g' r',
     createRounds fuel game_one twin_setups r = Some (Ok (g', r', None)) ->
     map Round.Setup (Game.Rounds g') = [("a"%string, "a"%string)]).
Proof.
  split.
  - eexists _, _. split; vm_compute; reflexivity.
  - intros fuel r g' r' Heq.
    destruct (createRounds_spec fuel game_one twin_setups r) as [_ Hok].
    { split; vm_compute; discriminate. }
    destruct Hok as [_ Hres]; [vm_compute; discriminate|].
    destruct (Hres _ Heq)
      as (rounds & r2 & Hg & Hlen & _ & (setupsMap & picks & Hpl & _ & _ & Hslots) & _).
    simplify_eq. simpl in *.
    destruct rounds as [|round [|? ?]]; simpl in Hlen; try lia.
    destruct picks as [|i0 [|i1 [|? ?]]]; simpl in Hpl; try lia.
    assert (Hany : forall i x, twin_setups !! i = Some x -> x = "a"%string).
    { intros [|[|i]] x Hx; simpl in Hx; by simplify_eq. }
    destruct (Hslots 0%nat i0 eq_refl) as [[x0 Hx0] Hs0].
    destruct (Hslots 1%nat i1 eq_refl) as [[x1 Hx1] Hs1].
    rewrite Hx0 in Hs0. rewrite Hx1 in Hs1.
    apply Hany in Hx0, Hx1. subst.
    unfold slot in Hs0, Hs1. simpl in Hs0, Hs1.
    destruct round as [[s1 s2] ? ?]. simpl in *. by simplify_eq.
Qed.

(** ** The tests of the repository, on the model *)

Example TestGetCardsCsv_R :
  getCardsCsv (fun text => text) (inr reader_test) "R"
  = (["test"; "test2"; "test3"]%string, None).
Proof. reflexivity. Qed.

Example TestGetCardsCsv_G :
  getCardsCsv (fun text => text) (inr reader_test) "G" = (["test3"%string], None).
Proof. reflexivity. Qed.

Example TestGetCardsCsv_error :
  getCardsCsv (fun text => text) (inl (ErrExternal "oh no")) EmptyString
  = ([], Some (ErrExternal "oh no")).
Proof. reflexivity. Qed.

Example TestCreateRounds :
  exists g' r',
    createRounds 6 game_three six_setups rand0 = Some (Ok (g', r', None)) /\
    map Round.Setup (Game.Rounds g')
    = [("c1", "c2"); ("c3", "c4"); ("c5", "c6")]%string.
Proof. eexists _, _. split; vm_compute; reflexivity. Qed.

Example TestErrCreateRounds :
  createRounds 6 game_three ["test1"; "test2"]%string rand0
  = Some (Ok (game_three, rand0, Some ErrTooFewSetups)).
Proof. reflexivity. Qed.

Example TestDealPunchlines :
  exists g' r',
    dealPunchlines game_test_deal rand0 = Ok (g', r', None) /\
    map (fun p => length (Player.Punchlines p)) (Game.Players g') = [6; 6]%nat.
Proof. eexists _, _. split; vm_compute; reflexivity. Qed.

Example TestDealPunchlines_short :
  dealPunchlines game_test_deal_short rand0
  = Ok (game_test_deal_short, rand0, Some ErrTooFewPunchlines).
Proof. reflexivity. Qed.

(** * Further properties of the code *)

(** ** The refill on hands that need nothing *)

Lemma with_Punchlines_same (p : Player.t) :
  Player.with_Punchlines p (Player.Punchlines p) = p.
Proof. by destruct p. Qed.

Lemma deal_players_full (todo : list Player.t) (pool : list Card) (r : Rand) :
  Forall hand_full todo -> deal_players todo pool r = Ok (todo, pool, r, None).
Proof.
  induction 1 as [|p rest Hp _ IH]; simpl; [done|].
  unfold hand_full in Hp.
  replace (Z.of_nat (length pool) <? handSize - Z.of_nat (length (Player.Punchlines p)))
    with false by (symmetry; apply Z.ltb_ge; lia).
  replace (Z.to_nat (handSize - Z.of_nat (length (Player.Punchlines p))))
    with O by lia.
  simpl. by rewrite IH, with_Punchlines_same.
Qed.

Lemma deal_players_stuck (before : list Player.t) (p : Player.t)
    (rest : list Player.t) (pool : list Card) (r : Rand) :
  Forall hand_full before -> (length pool < deficit p)%nat ->
  deal_players (before ++ p :: rest) pool r
  = Ok (before ++ p :: rest, pool, r, Some ErrTooFewPunchlines).
Proof.
  intros Hfull Hshort. induction Hfull as [|q before Hq _ IH]; simpl.
  - unfold deficit in Hshort.
    by replace (Z.of_nat (length pool) <? handSize - Z.of_nat (length (Player.Punchlines p)))
      with true by (symmetry; apply Z.ltb_lt; lia).
  - unfold hand_full in Hq.
    replace (Z.of_nat (length pool) <? handSize - Z.of_nat (length (Player.Punchlines q)))
      with false by (symmetry; apply Z.ltb_ge; lia).
    replace (Z.to_nat (handSize - Z.of_nat (length (Player.Punchlines q))))
      with O by lia.
    simpl. by rewrite IH, with_Punchlines_same.
Qed.

Lemma refilled_full (p p' : Player.t) : refilled p p' -> hand_full p'.
Proof.
  intros (_ & dealt & Heq & Hlen). unfold hand_full, deficit in *.
  rewrite Heq, length_app. lia.
Qed.

Lemma Forall2_refilled_full (ps ps' : list Player.t) :
  Forall2 refilled ps ps' -> Forall hand_full ps'.
Proof.
  induction 1 as [|p p' ps ps' Hp _ IH]; constructor; [by eapply refilled_full|done].
Qed.

Lemma Game_eta (g : Game.t) :
  Game.with_Punchlines (Game.with_Players g (Game.Players g)) (Game.Punchlines g) = g.
Proof. by destruct g. Qed.

(** X1. A refill on a session whose hands all hold [handSize] cards or more
    changes nothing: the session comes back as it is, no random number is
    drawn and the result is nil, whatever the pool holds (an empty pool is
    no error, and a hand longer than [handSize] is not cut). *)
Theorem dealPunchlines_full_hands_unchanged (g : Game.t) (r : Rand) :
  Forall hand_full (Game.Players g) -> dealPunchlines g r = Ok (g, r, None).
Proof.
  intros Hfull. unfold dealPunchlines. rewrite deal_players_full by done.
  simpl. by rewrite Game_eta.
Qed.

Lemma dealPunchlines_full_hands_unchanged_witness :
  Game.Punchlines game_seven = [] /\
  dealPunchlines game_seven rand0 = Ok (game_seven, rand0, None).
Proof.
  split; [reflexivity|].
  apply dealPunchlines_full_hands_unchanged.
  repeat apply Forall_cons_2; try apply Forall_nil_2.
  unfold hand_full, handSize. simpl. lia.
Defined.

(** X2. A refill repeated on its own result is idle: the second call
    returns the same session and the same error, and draws nothing from the
    random source. After a failure the players served so far are full and
    the pool is still too small for the next one. *)
Theorem dealPunchlines_idempotent (g g' : Game.t) (r r' : Rand) (err : option error) :
  dealPunchlines g r = Ok (g', r', err) ->
  dealPunchlines g' r' = Ok (g', r', err).
Proof.
  intros Hdeal.
  destruct (deal_players_spec (Game.Players g) (Game.Punchlines g) r)
    as (ps' & pool' & r1 & err1 & Heq & _ & Herr).
  unfold dealPunchlines in Hdeal. rewrite Heq in Hdeal. simpl in Hdeal.
  simplify_eq. unfold dealPunchlines. simpl.
  destruct err as [e|].
  - destruct Herr as (-> & before & before' & p & rest & _ & -> & HF & _ & Hshort).
    rewrite deal_players_stuck; [done|by eapply Forall2_refilled_full|done].
  - destruct Herr as [HF _].
    rewrite deal_players_full by (by eapply Forall2_refilled_full). done.
Qed.

Lemma dealPunchlines_idempotent_witness :
  exists g' r',
    dealPunchlines game_two rand0 = Ok (g', r', None) /\
    dealPunchlines g' r' = Ok (g', r', None) /\
    exists g'' r'',
      dealPunchlines game_short rand0 = Ok (g'', r'', Some ErrTooFewPunchlines) /\
      dealPunchlines g'' r'' = Ok (g'', r'', Some ErrTooFewPunchlines).
Proof.
  eexists _, _. split; [vm_compute; reflexivity|].
  split; [apply (dealPunchlines_idempotent game_two _ rand0); vm_compute; reflexivity|].
  eexists _, _. split; [vm_compute; reflexivity|].
  apply (dealPunchlines_idempotent game_short _ rand0); vm_compute; reflexivity.
Defined.

(** ** The probes of findID *)

Lemma probe_range (r : Rand) (k : nat) : 0 <= probe r k < 99.
Proof.
  unfold probe. pose proof (Nat.mod_upper_bound (raw r (pos r + k)) 99). lia.
Qed.

Lemma Intn_99 (r : Rand) :
  Intn r 99 = Some ((raw r (pos r) mod 99)%nat, mkRand (raw r) (S (pos r))).
Proof. reflexivity. Qed.

Lemma probe_shift (r : Rand) (k : nat) :
  probe (mkRand (raw r) (S (pos r))) k = probe r (S k).
Proof. unfold probe. simpl. by rewrite Nat.add_succ_r. Qed.

(** What the probe loop returns, probe by probe: the probes before the one
    that decides all found sessions the test does not reclaim. *)
Lemma findID_loop_cases (attempts i : nat) (games : gmap Z (option Game.t))
    (clock : nat -> Z) (r : Rand) :
  match findID_loop attempts i games clock r with
  | Ok (games', r', id, None) =>
    exists k,
      (k < attempts)%nat /\
      (forall j, (j < k)%nat -> skipped games clock r i j) /\
      id = probe r k /\ r' = mkRand (raw r) (pos r + S k) /\
      ((games !! id = None /\ games' = games) \/
       (exists game,
          games !! id = Some (Some game) /\
          clock (i + k)%nat < Game.Created game + hour * 12 /\
          games' = <[id := None]> games))
  | Ok (games', r', id, Some err) =>
    err = ErrNoGamesAvailable /\ id = 0 /\ games' = games /\
    r' = mkRand (raw r) (pos r + attempts) /\
    (forall j, (j < attempts)%nat -> skipped games clock r i j)
  | Panic e (games', r', id, _) =>
    e = NilDereference /\ games' = games /\
    exists k,
      (k < attempts)%nat /\
      (forall j, (j < k)%nat -> skipped games clock r i j) /\
      id = probe r k /\ r' = mkRand (raw r) (pos r + S k) /\
      games !! id = Some None
  end.
Proof.
  revert i r. induction attempts as [|attempts IH]; intros i r.
  - simpl. repeat split; [|intros j Hj; lia].
    destruct r as [f p]. simpl. f_equal. lia.
  - rewrite findID_loop_S, Intn_99.
    assert (Hp0 : Z.of_nat (raw r (pos r) mod 99) = probe r 0).
    { unfold probe. by rewrite Nat.add_0_r. }
    assert (Hnone : forall j, (j < 0)%nat -> skipped games clock r i j)
      by (intros j Hj; lia).
    rewrite Hp0.
    destruct (games !! probe r 0) as [[game|]|] eqn:Hg.
    + destruct (Z.ltb_spec (clock i) (Game.Created game + hour * 12)) as [Hy|Ho].
      * exists O. split; [lia|]. split; [done|]. split; [done|].
        split; [by rewrite Nat.add_1_r|].
        right. exists game. by rewrite Nat.add_0_r.
      * specialize (IH (S i) (mkRand (raw r) (S (pos r)))).
        assert (Hshift : forall j,
                  skipped games clock (mkRand (raw r) (S (pos r))) (S i) j ->
                  skipped games clock r i (S j)).
        { intros j (game' & Hl & Hc). exists game'.
          unfold probe in *. simpl in *.
          replace (pos r + S j)%nat with (S (pos r + j)) by lia.
          replace (i + S j)%nat with (S (i + j)) by lia. done. }
        assert (Hfirst : skipped games clock r i 0).
        { exists game. by rewrite Nat.add_0_r. }
        assert (Hall : forall k,
                  (forall j, (j < k)%nat ->
                     skipped games clock (mkRand (raw r) (S (pos r))) (S i) j) ->
                  forall j, (j < S k)%nat -> skipped games clock r i j).
        { intros k Hk [|j] Hj; [done|]. apply Hshift, Hk. lia. }
        destruct (findID_loop attempts (S i) games clock _)
          as [[[[games' r'] id] [err|]]|e [[[games' r'] id] oerr]].
        -- destruct IH as (-> & -> & -> & -> & Hsk).
           repeat split; [simpl; f_equal; lia|by apply Hall].
        -- destruct IH as (k & Hk & Hsk & -> & -> & Hres).
           exists (S k). split; [lia|]. split; [by apply Hall|].
           split; [apply probe_shift|].
           split; [simpl; f_equal; lia|].
           replace (i + S k)%nat with (S i + k)%nat by lia.
           exact Hres.
        -- destruct IH as (-> & -> & k & Hk & Hsk & -> & -> & Hnil).
           split; [done|]. split; [done|].
           exists (S k). split; [lia|]. split; [by apply Hall|].
           split; [apply probe_shift|].
           split; [simpl; f_equal; lia|].
           exact Hnil.
    + split; [done|]. split; [done|].
      exists O. split; [lia|]. split; [done|]. split; [done|].
      split; [by rewrite Nat.add_1_r|done].
    + exists O. split; [lia|]. split; [done|]. split; [done|].
      split; [by rewrite Nat.add_1_r|]. by left.
Qed.

(** The loop fails when each of its probes finds a session it skips. *)
Lemma findID_loop_all_skipped (attempts i : nat) (games : gmap Z (option Game.t))
    (clock : nat -> Z) (r : Rand) :
  (forall j, (j < attempts)%nat -> skipped games clock r i j) ->
  findID_loop attempts i games clock r
  = Ok (games, mkRand (raw r) (pos r + attempts), 0, Some ErrNoGamesAvailable).
Proof.
  revert i r. induction attempts as [|attempts IH]; intros i r Hsk.
  - simpl. rewrite Nat.add_0_r. by destruct r.
  - rewrite findID_loop_S, Intn_99.
    destruct (Hsk O) as (game & Hg & Hold); [lia|].
    unfold probe in Hg. rewrite !Nat.add_0_r in *. rewrite Hg.
    replace (clock i <? Game.Created game + hour * 12) with false
      by (symmetry; apply Z.ltb_ge; lia).
    rewrite IH.
    + simpl. by rewrite Nat.add_succ_r.
    + intros j Hj. destruct (Hsk (S j)) as (game' & Hg' & Hold'); [lia|].
      exists game'. unfold probe in *. simpl.
      replace (S (pos r + j)) with (pos r + S j)%nat by lia.
      replace (S (i + j)) with (i + S j)%nat by lia. done.
Qed.

(** X3. What [findID] can do, for every registry, clock and random source.
    It returns an id of 0..98 drawn by one of its first hundred probes, all
    earlier probes having found sessions it skipped, and the id was free
    (registry unchanged) or held a session younger than twelve hours (the
    entry becomes nil, nothing else changes); or it fails with
    [ErrNoGamesAvailable] after exactly hundred probes that were all skipped,
    registry unchanged; or it panics, and then on the nil pointer of an
    entry that holds nil. *)
Theorem findID_cases (games : gmap Z (option Game.t)) (clock : nat -> Z) (r : Rand) :
  match findID games clock r with
  | Ok (games', r', id, None) =>
    exists k,
      (k < maxAttempts)%nat /\
      (forall j, (j < k)%nat -> skipped games clock r 0 j) /\
      id = probe r k /\ 0 <= id < 99 /\
      r' = mkRand (raw r) (pos r + S k) /\
      ((games !! id = None /\ games' = games) \/
       (exists game,
          games !! id = Some (Some game) /\
          clock k < Game.Created game + hour * 12 /\
          games' = <[id := None]> games))
  | Ok (games', r', id, Some err) =>
    err = ErrNoGamesAvailable /\ id = 0 /\ games' = games /\
    r' = mkRand (raw r) (pos r + maxAttempts) /\
    (forall j, (j < maxAttempts)%nat -> skipped games clock r 0 j)
  | Panic e (games', r', id, _) =>
    e = NilDereference /\ games' = games /\
    exists k,
      (k < maxAttempts)%nat /\
      (forall j, (j < k)%nat -> skipped games clock r 0 j) /\
      id = probe r k /\ r' = mkRand (raw r) (pos r + S k) /\
      games !! id = Some None
  end.
Proof.
  unfold findID.
  pose proof (findID_loop_cases maxAttempts 0 games clock r) as H.
  destruct (findID_loop maxAttempts 0 games clock r)
    as [[[[games' r'] id] [err|]]|e [[[games' r'] id] oerr]]; [exact H| |exact H].
  destruct H as (k & Hk & Hsk & -> & -> & Hres).
  exists k. split; [done|]. split; [done|]. split; [done|].
  split; [apply probe_range|]. split; [done|exact Hres].
Qed.

(** X4. The probing is bounded and blind: when each of the hundred draws
    falls on a session the test skips, [findID] fails with
    [ErrNoGamesAvailable] and leaves the registry as it is, however many
    ids are free. *)
Theorem findID_fails_with_free_ids (games : gmap Z (option Game.t))
    (clock : nat -> Z) (r : Rand) :
  (forall j, (j < maxAttempts)%nat -> skipped games clock r 0 j) ->
  findID games clock r
  = Ok (games, mkRand (raw r) (pos r + maxAttempts), 0, Some ErrNoGamesAvailable).
Proof. apply findID_loop_all_skipped. Qed.

Lemma findID_fails_with_free_ids_witness :
  games_one !! 0 = None /\
  findID games_one (fun _ => hour * 13) rand_five
  = Ok (games_one, mkRand (raw rand_five) 100, 0, Some ErrNoGamesAvailable).
Proof.
  split; [reflexivity|].
  apply (findID_fails_with_free_ids games_one (fun _ => hour * 13) rand_five).
  intros j _. exists (Game.mk 5 [] [] [] 0 PLAY 0).
  split; [reflexivity|]. vm_compute. discriminate.
Defined.

(** ** NewGame *)

(** The three ways [createRounds] returns. *)
Lemma createRounds_results (fuel : nat) (g : Game.t) (setups : list Card)
    (r : Rand) (res : outcome (Game.t * Rand * option error)) :
  createRounds fuel g setups r = Some res ->
  res = Ok (g, r, Some ErrTooFewSetups) \/
  res = Panic MakeLenOutOfRange (g, r, None) \/
  exists rounds r',
    res = Ok (Game.with_Rounds g rounds, r', None) /\
    Z.of_nat (length rounds) = Game.RoundsRemaining g /\
    Forall (fun round => Round.Plays round = None /\ Round.Votes round = None)
           rounds.
Proof.
  intros Hres.
  destruct (decide (0 <= Game.RoundsRemaining g <= make_Rounds_max)) as [Hin|Hout].
  - destruct (createRounds_spec fuel g setups r Hin) as [Hfew Hok].
    destruct (Z.lt_ge_cases (Z.of_nat (length setups)) (Game.RoundsRemaining g * 2))
      as [Hlt|Hge].
    + left. rewrite (Hfew Hlt) in Hres. by simplify_eq.
    + right. right. destruct (Hok Hge) as [_ Hshape].
      destruct (Hshape res Hres) as (rounds & r' & -> & Hlen & Hfresh & _).
      by exists rounds, r'.
  - unfold createRounds in Hres.
    destruct (Z.of_nat (length setups) <? wrap (Game.RoundsRemaining g * 2));
      [left; by simplify_eq|].
    right. left. unfold make_Rounds in Hres.
    destruct (Z.ltb_spec (Game.RoundsRemaining g) 0) as [Hneg|Hpos]; simpl in Hres;
      [by simplify_eq|].
    destruct (Z.ltb_spec make_Rounds_max (Game.RoundsRemaining g)) as [Hbig|Hsmall];
      [by simplify_eq|lia].
Qed.

Lemma findID_reclaimed_only (games : gmap Z (option Game.t)) (clock : nat -> Z)
    (r : Rand) :
  match findID games clock r with
  | Ok (games1, _, id, None) =>
    reclaimed_only games games1 /\ 0 <= id < 99 /\
    <[id := None]> games1 = <[id := None]> games
  | Ok (games1, _, _, Some err) => games1 = games /\ err = ErrNoGamesAvailable
  | Panic e (games1, _, _, _) => games1 = games /\ e = NilDereference
  end.
Proof.
  unfold findID.
  pose proof (findID_loop_cases maxAttempts 0 games clock r) as H.
  destruct (findID_loop maxAttempts 0 games clock r)
    as [[[[games' r'] id] [err|]]|e [[[games' r'] id] oerr]].
  - by destruct H as (-> & _ & -> & _).
  - destruct H as (k & _ & _ & -> & _ & [[Hfree ->]|(game & Hg & _ & ->)]).
    + split; [by left|]. split; [apply probe_range|done].
    + split; [right; by exists (probe r k), game|].
      split; [apply probe_range|]. by rewrite insert_insert_eq.
  - by destruct H as (-> & -> & _).
Qed.

Lemma games_full_lookup (created : Z) (n : nat) :
  (n < 99)%nat ->
  games_full created !! Z.of_nat n
  = Some (Some (Game.mk (Z.of_nat n) [] [] [] 0 PLAY created)).
Proof.
  intros Hn. unfold games_full. apply elem_of_list_to_map_1.
  - rewrite <- list_fmap_compose.
    apply NoDup_fmap_2_strong; [|apply NoDup_seq].
    intros a b _ _ Hab. simpl in Hab. lia.
  - apply list_elem_of_fmap. exists n. split; [done|].
    apply elem_of_seq. lia.
Qed.

Section NewGameProps.
Variable TrimSpace : string -> string.
Variable GetObject : string -> error + csvReader.

(** X5. [NewGame] succeeds when both card files load, [findID] gives an
    id, the round count is one [make] accepts, the setups cover two cards a
    round, the random source draws that many different indices and the pool
    covers the first hand. The session it returns is the one it registers
    under that id, so that [GetGame] finds it; it holds the requested rounds,
    all with nil plays and votes, the phase is [PLAY], the creation time is
    the zero time (it is never set), the one player holds a refilled hand,
    and hand and pool together are the player's cards and the loaded
    punchlines. With one round or more the precondition of [Play] and
    [Vote] on the round counter holds. *)
Theorem NewGame_registers (fuel : nat) (games games1 : gmap Z (option Game.t))
    (clock : nat -> Z) (player : Player.t) (rounds : Z) (cleanliness : string)
    (r r1 : Rand) (punchlines setups : list Card) (id : Z) :
  getPunchlines TrimSpace GetObject cleanliness = (punchlines, None) ->
  getSetups TrimSpace GetObject cleanliness = (setups, None) ->
  findID games clock r = Ok (games1, r1, id, None) ->
  0 <= rounds <= make_Rounds_max ->
  rounds * 2 <= Z.of_nat (length setups) ->
  (Z.to_nat (rounds * 2)
   <= size (list_to_set (draws r1 (length setups) fuel) : gset nat))%nat ->
  (deficit player <= length punchlines)%nat ->
  exists g r',
    NewGame TrimSpace GetObject fuel games clock player rounds cleanliness r
    = Some (Ok (<[id := Some g]> games1, r', Some g, None)) /\
    GetGame (<[id := Some g]> games1) id = (Some g, None) /\
    Game.ID g = id /\
    Game.RoundsRemaining g = rounds /\
    Z.of_nat (length (Game.Rounds g)) = rounds /\
    Forall (fun round => Round.Plays round = None /\ Round.Votes round = None)
           (Game.Rounds g) /\
    Game.CurrentAction g = PLAY /\
    Game.Created g = 0 /\
    (exists p', Game.Players g = [p'] /\ refilled player p') /\
    all_cards g ≡ₚ Player.Punchlines player ++ punchlines /\
    (1 <= rounds -> round_in_range g).
Proof.
  intros Hp Hs Hid Hrounds Hcover Hfair Hpool.
  unfold NewGame. rewrite Hp, Hs, Hid.
  set (g0 := Game.mk id [player] punchlines [] rounds PLAY 0).
  destruct (createRounds_spec fuel g0 setups r1 Hrounds) as [_ Hok].
  destruct (Hok Hcover) as [Hends Hshape].
  destruct (Hends Hfair) as [res Hres].
  destruct (Hshape res Hres) as (rs & r2 & -> & Hlen & Hfresh & _).
  rewrite Hres.
  destruct (deal_players_spec [player] punchlines r2)
    as (ps' & pool' & r3 & err & Hdeal & Hperm & Herr).
  unfold dealPunchlines. simpl Game.Players. simpl Game.Punchlines.
  rewrite Hdeal. simpl.
  destruct err as [e|].
  { destruct Herr as (_ & before & before' & p & rest & Hsplit & _ & _ & Hl & Hshort).
    destruct before as [|q [|? ?]]; simpl in Hsplit; simplify_eq.
    unfold total_deficit in Hl. simpl in Hl. lia. }
  destruct Herr as [HF _].
  apply Forall2_cons_inv_l in HF as (p' & ps'' & Hrf & HF & ->).
  apply Forall2_nil_inv_l in HF as ->.
  eexists _, r3. split; [reflexivity|]. simpl.
  split; [unfold GetGame; by rewrite lookup_insert_eq|].
  do 2 (split; [done|]). split; [exact Hlen|]. split; [exact Hfresh|].
  do 2 (split; [done|]). split; [by exists p'|].
  split.
  - unfold all_cards. simpl. rewrite Hperm. unfold hands. simpl.
    by rewrite app_nil_r.
  - intros Hone. unfold round_in_range. simpl. simpl in Hlen. lia.
Qed.

(** X6. What a call of [NewGame] that returns can have done. It never
    returns both a session and an error, nor neither. On success the
    registry is the old one with the new session stored under its own id,
    an id of 0..98. On failure no session is added, but the registry is not
    always the old one: one session may have been replaced by nil, and then
    the error is [ErrTooFewSetups] or [ErrTooFewPunchlines]. A panic is the
    nil dereference of [findID] or the length check of [make]. *)
Theorem NewGame_outcomes (fuel : nat) (games : gmap Z (option Game.t))
    (clock : nat -> Z) (player : Player.t) (rounds : Z) (cleanliness : string)
    (r : Rand) :
  match NewGame TrimSpace GetObject fuel games clock player rounds cleanliness r with
  | None => True
  | Some (Ok (games', _, Some g, None)) =>
    games' = <[Game.ID g := Some g]> games /\ 0 <= Game.ID g < 99
  | Some (Ok (games', _, None, Some err)) =>
    games' = games \/
    (reclaimed_only games games' /\
     (err = ErrTooFewSetups \/ err = ErrTooFewPunchlines))
  | Some (Ok (_, _, Some _, Some _)) => False
  | Some (Ok (_, _, None, None)) => False
  | Some (Panic e (games', _, g, err)) =>
    g = None /\ err = None /\ reclaimed_only games games' /\
    (e = NilDereference \/ e = MakeLenOutOfRange)
  end.
Proof.
  unfold NewGame.
  destruct (getPunchlines TrimSpace GetObject cleanliness) as [punchlines [e|]];
    [by left|].
  destruct (getSetups TrimSpace GetObject cleanliness) as [setups [e|]];
    [by left|].
  pose proof (findID_reclaimed_only games clock r) as Hfind.
  destruct (findID games clock r)
    as [[[[games1 r1] id] [err|]]|e [[[games1 r1] id] oerr]].
  - destruct Hfind as [-> _]. by left.
  - destruct Hfind as (Hrec & Hid & Hins).
    set (g0 := Game.mk id [player] punchlines [] rounds PLAY 0).
    destruct (createRounds fuel g0 setups r1) as [res|] eqn:Hres; [|done].
    destruct (createRounds_results fuel g0 setups r1 res Hres)
      as [->|[->|(rs & r2 & -> & _)]].
    + right. split; [done|]. by left.
    + repeat split; try done. by right.
    + destruct (deal_players_spec [player] punchlines r2)
        as (ps' & pool' & r3 & err & Hdeal & _ & Herr).
      unfold dealPunchlines. simpl Game.Players. simpl Game.Punchlines.
      rewrite Hdeal. simpl.
      destruct err as [e|].
      * destruct Herr as [-> _]. right. split; [done|]. by right.
      * simpl. split; [|done].
        match goal with
        | |- <[_ := ?v]> _ = _ =>
          rewrite <- (insert_insert_eq games1 id v None), Hins
        end.
        apply insert_insert_eq.
  - destruct Hfind as [-> ->]. repeat split; try done; [by left|by left].
Qed.

(** X7. A call that fails after [findID] has taken the id of a session
    younger than twelve hours leaves nil in the place of that session: with
    too few setups [NewGame] returns [ErrTooFewSetups], [GetGame] on that id
    then returns nil with a nil error, and a later [findID] whose first
    probe draws the id panics on the nil pointer. *)
Theorem NewGame_failure_leaves_nil (fuel : nat) (games : gmap Z (option Game.t))
    (clock : nat -> Z) (player : Player.t) (rounds : Z) (cleanliness : string)
    (r : Rand) (punchlines setups : list Card) (game : Game.t) :
  getPunchlines TrimSpace GetObject cleanliness = (punchlines, None) ->
  getSetups TrimSpace GetObject cleanliness = (setups, None) ->
  games !! probe r 0 = Some (Some game) ->
  clock O < Game.Created game + hour * 12 ->
  in_int (rounds * 2) ->
  Z.of_nat (length setups) < rounds * 2 ->
  NewGame TrimSpace GetObject fuel games clock player rounds cleanliness r
  = Some (Ok (<[probe r 0 := None]> games, mkRand (raw r) (S (pos r)), None,
              Some ErrTooFewSetups)) /\
  GetGame (<[probe r 0 := None]> games) (probe r 0) = (None, None) /\
  (forall clock' r2,
     probe r2 0 = probe r 0 ->
     exists st,
       findID (<[probe r 0 := None]> games) clock' r2 = Panic NilDereference st).
Proof.
  intros Hp Hs Hg Hyoung Hint Hfew.
  assert (Hp0 : forall r0, Z.of_nat (raw r0 (pos r0) mod 99) = probe r0 0).
  { intros r0. unfold probe. by rewrite Nat.add_0_r. }
  split; [|split].
  - unfold NewGame. rewrite Hp, Hs.
    rewrite (findID_takes_young games clock r _ _ game (Intn_99 r));
      [|by rewrite Hp0|done].
    rewrite Hp0. unfold createRounds. simpl Game.RoundsRemaining.
    rewrite (wrap_id _ Hint).
    by replace (Z.of_nat (length setups) <? rounds * 2) with true
      by (symmetry; apply Z.ltb_lt; lia).
  - unfold GetGame. by rewrite lookup_insert_eq.
  - intros clock' r2 Hsame. eexists. unfold findID, maxAttempts.
    rewrite (findID_loop_S 99), Intn_99, Hp0, Hsame, lookup_insert_eq.
    reflexivity.
Qed.
(** X8. The registry fills up for good. [NewGame] never sets the creation
    time of the session it registers, and [findID] only takes the id of a
    session whose creation time is less than twelve hours back: once every
    id of 0..98 holds a session with the zero creation time and the clock is
    twelve hours or more past the zero time, every call of [NewGame] fails
    with [ErrNoGamesAvailable] after its hundred probes, and the registry
    stays as it is. *)
Theorem NewGame_full_registry_fails (fuel : nat) (games : gmap Z (option Game.t))
    (clock : nat -> Z) (player : Player.t) (rounds : Z) (cleanliness : string)
    (r : Rand) (punchlines setups : list Card) :
  getPunchlines TrimSpace GetObject cleanliness = (punchlines, None) ->
  getSetups TrimSpace GetObject cleanliness = (setups, None) ->
  (forall id, 0 <= id < 99 ->
     exists game, games !! id = Some (Some game) /\ Game.Created game = 0) ->
  (forall k, hour * 12 <= clock k) ->
  NewGame TrimSpace GetObject fuel games clock player rounds cleanliness r
  = Some (Ok (games, mkRand (raw r) (pos r + maxAttempts), None,
              Some ErrNoGamesAvailable)).
Proof.
  intros Hp Hs Hfull Hlate. unfold NewGame. rewrite Hp, Hs.
  unfold findID. rewrite findID_loop_skips_old; [done|].
  intros id k Hid. destruct (Hfull id Hid) as (game & Hg & Hzero).
  exists game. split; [done|]. rewrite Hzero. apply Hlate.
Qed.
End NewGameProps.

Lemma NewGame_registers_witness :
  exists g r',
    NewGame (fun text => text) store_test 2 ∅ (fun _ => hour * 13)
      (Player.mk "al" []) 1 "PG" rand0
    = Some (Ok (<[0 := Some g]> ∅, r', Some g, None)) /\
    Game.RoundsRemaining g = 1 /\
    round_in_range g.
Proof.
  destruct (NewGame_registers (fun text => text) store_test 2 ∅ ∅
              (fun _ => hour * 13) (Player.mk "al" []) 1 "PG" rand0
              (mkRand (raw rand0) 1)
              ["p1"; "p2"; "p3"; "p4"; "p5"; "p6"]%string ["s1"; "s2"]%string 0)
    as (g & r' & Heq & _ & _ & HRR & _ & _ & _ & _ & _ & _ & Hrange).
  - reflexivity.
  - reflexivity.
  - reflexivity.
  - split; vm_compute; discriminate.
  - vm_compute. discriminate.
  - vm_compute. lia.
  - vm_compute. lia.
  - exists g, r'. split; [exact Heq|]. split; [exact HRR|].
    apply Hrange. lia.
Defined.

Lemma NewGame_failure_leaves_nil_witness :
  NewGame (fun text => text) store_test 0 games_one (fun _ => hour)
    (Player.mk "al" []) 3 "PG" rand_five
  = Some (Ok (<[5 := None]> games_one, mkRand (raw rand_five) 1, None,
              Some ErrTooFewSetups)) /\
  GetGame (<[5 := None]> games_one) 5 = (None, None).
Proof.
  destruct (NewGame_failure_leaves_nil (fun text => text) store_test 0 games_one
              (fun _ => hour) (Player.mk "al" []) 3 "PG" rand_five
              ["p1"; "p2"; "p3"; "p4"; "p5"; "p6"]%string ["s1"; "s2"]%string
              (Game.mk 5 [] [] [] 0 PLAY 0))
    as (Heq & Hget & _).
  - reflexivity.
  - reflexivity.
  - reflexivity.
  - vm_compute. reflexivity.
  - split; vm_compute; discriminate.
  - vm_compute. reflexivity.
  - split; [exact Heq|exact Hget].
Defined.

Lemma NewGame_full_registry_fails_witness :
  NewGame (fun text => text) store_test 2 (games_full 0) (fun _ => hour * 13)
    (Player.mk "al" []) 1 "PG" rand0
  = Some (Ok (games_full 0, mkRand (raw rand0) 100, None,
              Some ErrNoGamesAvailable)).
Proof.
  apply (NewGame_full_registry_fails (fun text => text) store_test 2 (games_full 0)
           (fun _ => hour * 13) (Player.mk "al" []) 1 "PG" rand0
           ["p1"; "p2"; "p3"; "p4"; "p5"; "p6"]%string ["s1"; "s2"]%string).
  - reflexivity.
  - reflexivity.
  - intros id Hid. exists (Game.mk id [] [] [] 0 PLAY 0). split; [|done].
    replace id with (Z.of_nat (Z.to_nat id)) by lia.
    apply games_full_lookup. lia.
  - intros k. vm_compute. discriminate.
Defined.

(** ** Joining a session *)

Lemma name_exists_elem (ps : list Player.t) (name : string) :
  name_exists ps name = true <-> name ∈ map Player.Name ps.
Proof.
  induction ps as [|p ps IH]; simpl.
  - split; [done|by inversion 1].
  - rewrite elem_of_cons. destruct (decide (Player.Name p = name)) as [<-|Hne].
    + split; [by left|done].
    + rewrite IH. split; [by right|]. intros [Heq|Hin]; [congruence|done].
Qed.

Lemma deal_players_names (todo ps' : list Player.t) (pool pool' : list Card)
    (r r' : Rand) (err : option error) :
  deal_players todo pool r = Ok (ps', pool', r', err) ->
  map Player.Name ps' = map Player.Name todo.
Proof.
  intros Heq.
  destruct (deal_players_spec todo pool r)
    as (ps1 & pool1 & r1 & err1 & Heq1 & _ & Herr).
  rewrite Heq in Heq1. simplify_eq.
  destruct err1 as [e|].
  - destruct Herr as (_ & before & before' & q & rest & -> & -> & HF & _).
    rewrite !map_app. by rewrite (Forall2_refilled_names _ _ HF).
  - destruct Herr as [HF _]. by apply Forall2_refilled_names.
Qed.

(** X9. [AddPlayer] keeps the names of a session pairwise different. A
    player whose name is taken is refused and the session is untouched; any
    other player is appended, whether the refill then succeeds or not, and
    the names are the old ones followed by the new one. *)
Theorem AddPlayer_keeps_names_unique (g : Game.t) (player : Player.t) (r : Rand) :
  NoDup (names g) ->
  exists g' r' err,
    AddPlayer g player r = Ok (g', r', err) /\
    NoDup (names g') /\
    (Player.Name player ∈ names g ->
     g' = g /\ r' = r /\ err = Some ErrPlayerNameExists) /\
    (Player.Name player ∉ names g ->
     names g' = names g ++ [Player.Name player] /\
     err <> Some ErrPlayerNameExists).
Proof.
  intros Hnd. unfold AddPlayer, names in *.
  destruct (name_exists (Game.Players g) (Player.Name player)) eqn:Hname.
  - apply name_exists_elem in Hname.
    exists g, r, (Some ErrPlayerNameExists). by repeat split.
  - assert (Hnew : Player.Name player ∉ map Player.Name (Game.Players g)).
    { intros Hin. apply name_exists_elem in Hin. congruence. }
    destruct (deal_players_spec (Game.Players g ++ [player]) (Game.Punchlines g) r)
      as (ps' & pool' & r' & err & Hdeal & _ & Herr).
    pose proof (deal_players_names _ _ _ _ _ _ _ Hdeal) as Hnames.
    rewrite map_app in Hnames. simpl in Hnames.
    eexists _, r', err. unfold dealPunchlines. simpl. rewrite Hdeal. simpl.
    split; [reflexivity|]. simpl. rewrite Hnames. split; [|split].
    + apply NoDup_app. split; [done|]. split; [|apply NoDup_singleton].
      intros x Hx Hx'. apply list_elem_of_singleton in Hx'. by subst.
    + done.
    + intros _. split; [done|].
      destruct err as [e|]; [|done]. destruct Herr as [-> _]. done.
Qed.

Lemma AddPlayer_keeps_names_unique_witness :
  exists g' r' err,
    AddPlayer game_two (Player.mk "cy" []) rand0 = Ok (g', r', err) /\
    names g' = ["al"; "bob"; "cy"]%string.
Proof.
  destruct (AddPlayer_keeps_names_unique game_two (Player.mk "cy" []) rand0)
    as (g' & r' & err & Heq & _ & _ & Hnew).
  - apply (bool_decide_unpack _). vm_compute. exact I.
  - exists g', r', err. split; [exact Heq|].
    apply Hnew. apply (bool_decide_unpack _). vm_compute. exact I.
Defined.

(** X10. A player who joins brings their cards into the session: whatever
    the refill does, the hands and the pool after [AddPlayer] hold the cards
    the session held and those of the new player's hand, no more, no
    fewer. *)
Theorem AddPlayer_conserves_cards (g : Game.t) (player : Player.t) (r : Rand) :
  Player.Name player ∉ names g ->
  exists g' r' err,
    AddPlayer g player r = Ok (g', r', err) /\
    all_cards g' ≡ₚ all_cards g ++ Player.Punchlines player.
Proof.
  intros Hnew. unfold AddPlayer.
  replace (name_exists (Game.Players g) (Player.Name player)) with false.
  2:{ symmetry. apply not_true_is_false. intros Hin.
      by apply name_exists_elem in Hin. }
  destruct (dealPunchlines_conserves
              (Game.with_Players g (Game.Players g ++ [player])) r)
    as (g' & r' & err & Heq & Hperm).
  exists g', r', err. split; [done|]. rewrite Hperm.
  unfold all_cards, hands. simpl.
  rewrite map_app, concat_app. simpl. rewrite app_nil_r, <- !app_assoc.
  apply Permutation_app_head, Permutation_app_comm.
Qed.

Lemma AddPlayer_conserves_cards_witness :
  exists g' r' err,
    AddPlayer game_two (Player.mk "cy" ["c1"%string]) rand0 = Ok (g', r', err) /\
    length (all_cards g') = 14%nat.
Proof.
  destruct (AddPlayer_conserves_cards game_two (Player.mk "cy" ["c1"%string]) rand0)
    as (g' & r' & err & Heq & Hperm).
  - apply (bool_decide_unpack _). vm_compute. exact I.
  - exists g', r', err. split; [exact Heq|]. by rewrite Hperm.
Defined.

(** ** Playing twice, and playing from full hands *)

Lemma map_store_twice (m : option (gmap string Card)) (name : string)
    (c1 c2 : Card) :
  map_store (map_store m name c1) name c2 = map_store m name c2.
Proof. unfold map_store. simpl. by rewrite insert_insert_eq. Qed.

(** X11. A player who plays twice in a round replaces their first card: the
    plays map of the round ends as if only the second call had been made,
    while each call took its card out of the hands. The first card, when it
    differs from the second, is then neither in a hand nor in the pool. *)
Theorem Play_twice_last_write_wins (g : Game.t) (name : string) (c1 c2 : Card)
    (r : Rand) (round : Round.t) :
  at_index (Game.Rounds g) (wrap (Game.RoundsRemaining g - 1)) = Some round ->
  NoDup (all_cards g) ->
  exists g1 r1 g2 r2,
    Play g name c1 r = Ok (g1, r1) /\
    Play g1 name c2 r1 = Ok (g2, r2) /\
    at_index (Game.Rounds g2) (wrap (Game.RoundsRemaining g2 - 1))
    = Some (Round.with_Plays round (map_store (Round.Plays round) name c2)) /\
    (c1 ∈ hands (Game.Players g) -> c2 ∈ hands (Game.Players g1) ->
     c1 :: c2 :: all_cards g2 ≡ₚ all_cards g) /\
    (c1 ∈ hands (Game.Players g) -> c1 <> c2 -> c1 ∉ all_cards g2).
Proof.
  intros Hround Hnd.
  destruct (Play_step g name c1 r round Hround Hnd)
    as (g1 & r1 & Heq1 & Hround1 & HRR1 & _ & Hnd1 & _).
  destruct (Play_step g1 name c2 r1 _ Hround1 Hnd1)
    as (g2 & r2 & Heq2 & Hround2 & HRR2 & _ & Hnd2 & _).
  destruct (Play_cards g name c1 r round Hround Hnd)
    as (g1' & r1' & Heq1' & _ & Hin1 & Hnot1).
  destruct (Play_cards g1 name c2 r1 _ Hround1 Hnd1)
    as (g2' & r2' & Heq2' & _ & Hin2 & Hnot2).
  rewrite Heq1 in Heq1'. rewrite Heq2 in Heq2'. simplify_eq.
  exists g1', r1', g2', r2'. split; [done|]. split; [done|].
  split; [|split].
  - rewrite Hround2. simpl. by rewrite map_store_twice.
  - intros Hc1 Hc2. by rewrite (Hin2 Hc2), (Hin1 Hc1).
  - intros Hc1 Hne Hc.
    assert (Hc' : c1 ∈ all_cards g1').
    { destruct (decide (c2 ∈ hands (Game.Players g1'))) as [Hc2|Hc2].
      - rewrite <- (Hin2 Hc2). by right.
      - by rewrite <- (Hnot2 Hc2). }
    rewrite <- (Hin1 Hc1) in Hnd. apply NoDup_cons in Hnd as [Hfresh _]. done.
Qed.

Lemma Play_twice_last_write_wins_witness :
  exists g1 r1 g2 r2 round2,
    Play game_two "bob" "b1" rand0 = Ok (g1, r1) /\
    Play g1 "bob" "b2" r1 = Ok (g2, r2) /\
    at_index (Game.Rounds g2) (wrap (Game.RoundsRemaining g2 - 1)) = Some round2 /\
    Round.Plays round2 = Some {[ "bob"%string := "b2"%string ]} /\
    "b1"%string ∉ all_cards g2.
Proof.
  destruct (Play_twice_last_write_wins game_two "bob" "b1" "b2" rand0 Round.zero)
    as (g1 & r1 & g2 & r2 & Heq1 & Heq2 & Hround & _ & Hlost).
  - reflexivity.
  - apply (bool_decide_unpack _). vm_compute. exact I.
  - exists g1, r1, g2, r2. eexists. split; [exact Heq1|]. split; [exact Heq2|].
    split; [exact Hround|]. split; [reflexivity|].
    apply Hlost; [|discriminate].
    apply (bool_decide_unpack _). vm_compute. exact I.
Defined.

Lemma on_target_no_deficit (ps : list Player.t) :
  Forall hand_on_target ps -> total_deficit ps = 0%nat.
Proof.
  induction 1 as [|p ps Hp _ IH]; [done|].
  rewrite total_deficit_cons, IH. unfold hand_on_target, deficit in *. lia.
Qed.

Lemma on_target_within (ps : list Player.t) :
  Forall hand_on_target ps -> Forall hand_within_target ps.
Proof.
  intros H. eapply Forall_impl; [exact H|].
  unfold hand_on_target, hand_within_target. intros; lia.
Qed.

Lemma on_target_full (ps : list Player.t) :
  Forall hand_on_target ps -> Forall hand_full ps.
Proof.
  intros H. eapply Forall_impl; [exact H|].
  unfold hand_on_target, hand_full. intros; lia.
Qed.

Lemma no_deficit_full (ps : list Player.t) :
  total_deficit ps = 0%nat -> Forall hand_full ps.
Proof.
  induction ps as [|p ps IH]; [constructor|].
  rewrite total_deficit_cons. intros Hz.
  constructor; [unfold hand_full, deficit in *; lia|apply IH; lia].
Qed.

(** After the scan of [Play] on full hands without duplicates, the players
    are short of one card if a hand held the card, of none otherwise. *)
Lemma rm_players_deficit (card : Card) (ps ps' : list Player.t) :
  NoDup (hands ps) -> Forall hand_on_target ps ->
  Forall2 (rm_player card) ps ps' ->
  Forall hand_within_target ps' /\
  (card ∈ hands ps -> total_deficit ps' = 1%nat) /\
  (card ∉ hands ps -> ps' = ps).
Proof.
  intros Hnd Hon HF.
  split; [|split; [|intros Hnot; by eapply rm_players_absent]];
    induction HF as [|p p' ps ps' Hp HF IH]; try by constructor.
  - apply Forall_cons in Hon as [Hp0 Hon].
    unfold hands in Hnd. simpl in Hnd.
    apply NoDup_app in Hnd as (Hndp & _ & Hndps).
    constructor; [|by apply IH].
    destruct Hp as [_ Hrm].
    destruct (rm_hand_spec card (Player.Punchlines p)) as (h & Hh & Hin & Hnot);
      [by apply NoDup_at_most_once|].
    unfold hand_within_target, hand_on_target in *.
    rewrite Hh in Hrm. injection Hrm as <-.
    destruct (decide (card ∈ Player.Punchlines p)) as [Hc|Hc].
    + pose proof (Permutation_length (Hin Hc)) as Hlen. simpl in Hlen. lia.
    + rewrite (Hnot Hc). lia.
  - intros Hin. by inversion Hin.
  - intros Hin.
    apply Forall_cons in Hon as [Hp0 Hon].
    unfold hands in Hnd, Hin. simpl in Hnd, Hin.
    apply NoDup_app in Hnd as (Hndp & Hdisj & Hndps).
    rewrite total_deficit_cons.
    destruct (decide (card ∈ Player.Punchlines p)) as [Hc|Hc].
    + assert (ps' = ps) as ->.
      { eapply rm_players_absent; [|exact HF]. by apply Hdisj. }
      rewrite (on_target_no_deficit _ Hon).
      destruct Hp as [_ Hrm].
      destruct (rm_hand_spec card (Player.Punchlines p)) as (h & Hh & Hperm & _);
        [by apply NoDup_at_most_once|].
      rewrite Hh in Hrm. injection Hrm as Hrm.
      pose proof (Permutation_length (Hperm Hc)) as Hlen. simpl in Hlen.
      unfold deficit, hand_on_target in *. rewrite <- Hrm. lia.
    + assert (p' = p) as -> by (by eapply rm_player_absent).
      apply elem_of_app in Hin as [Hin|Hin]; [done|].
      rewrite (IH Hndps Hon Hin).
      unfold deficit, hand_on_target in *. lia.
Qed.

Lemma Play_full_hands (g : Game.t) (name : string) (card : Card)
    (r : Rand) (round : Round.t) :
  at_index (Game.Rounds g) (wrap (Game.RoundsRemaining g - 1)) = Some round ->
  NoDup (all_cards g) ->
  Forall hand_on_target (Game.Players g) ->
  Game.Punchlines g <> [] ->
  exists g' r',
    Play g name card r = Ok (g', r') /\
    Forall hand_on_target (Game.Players g') /\
    (card ∈ hands (Game.Players g) ->
     S (length (Game.Punchlines g')) = length (Game.Punchlines g)) /\
    (card ∉ hands (Game.Players g) ->
     Game.Players g' = Game.Players g /\
     Game.Punchlines g' = Game.Punchlines g /\ r' = r).
Proof.
  intros Hround Hnd Hon Hpool.
  assert (Hndh : NoDup (hands (Game.Players g))).
  { unfold all_cards in Hnd. by apply NoDup_app in Hnd as (? & _ & _). }
  destruct (Play_spec g name card r round Hround)
    as (ps1 & ps' & pool' & r' & err & HF & Hdeal & _ & ->);
    [by apply NoDup_hands_at_most_once|].
  destruct (rm_players_deficit card _ _ Hndh Hon HF) as (Hw1 & Hone & Hsame).
  destruct (deal_players_spec ps1 (Game.Punchlines g) r)
    as (ps2 & pool2 & r2 & err2 & Hdeal2 & _ & Herr).
  rewrite Hdeal in Hdeal2. simplify_eq.
  assert (Hlen : (0 < length (Game.Punchlines g))%nat).
  { destruct (Game.Punchlines g); [done|simpl; lia]. }
  assert (Hle : (total_deficit ps1 <= 1)%nat).
  { destruct (decide (card ∈ hands (Game.Players g))) as [Hc|Hc].
    - by rewrite (Hone Hc).
    - rewrite (Hsame Hc), (on_target_no_deficit _ Hon). lia. }
  eexists _, r2. split; [reflexivity|]. simpl.
  destruct err2 as [e|].
  { destruct Herr as (_ & before & before' & p & rest & -> & _ & _ & Hl & Hshort).
    rewrite total_deficit_app, total_deficit_cons in Hle. lia. }
  destruct Herr as [HF2 Hl].
  split; [by eapply Forall2_refilled_on_target|]. split.
  - intros Hc. rewrite (Hone Hc) in Hl. lia.
  - intros Hc. rewrite (Hsame Hc) in Hdeal.
    rewrite deal_players_full in Hdeal by (by apply on_target_full).
    by simplify_eq.
Qed.

(** X12. While the pool is not empty, [Play] keeps full hands full: on a
    session without duplicate cards whose hands all hold [handSize] cards,
    every hand holds [handSize] cards again when [Play] returns. If a hand
    held the card, one card has left the pool; if none did, hands, pool and
    random source are as before. *)
Theorem Play_keeps_hands_full (g : Game.t) (name : string) (card : Card)
    (r : Rand) (round : Round.t) :
  at_index (Game.Rounds g) (wrap (Game.RoundsRemaining g - 1)) = Some round ->
  NoDup (all_cards g) ->
  Forall hand_on_target (Game.Players g) ->
  Game.Punchlines g <> [] ->
  exists g' r',
    Play g name card r = Ok (g', r') /\
    Forall hand_on_target (Game.Players g') /\
    (card ∈ hands (Game.Players g) ->
     S (length (Game.Punchlines g')) = length (Game.Punchlines g)) /\
    (card ∉ hands (Game.Players g) ->
     Game.Players g' = Game.Players g /\
     Game.Punchlines g' = Game.Punchlines g /\ r' = r).
Proof. exact (Play_full_hands g name card r round). Qed.

Lemma Play_keeps_hands_full_witness :
  exists g' r',
    Play game_six "bob" "b1" rand0 = Ok (g', r') /\
    Forall hand_on_target (Game.Players g') /\
    length (Game.Punchlines g') = 2%nat.
Proof.
  destruct (Play_keeps_hands_full game_six "bob" "b1" rand0 Round.zero)
    as (g' & r' & Heq & Hon & Hin & _).
  - reflexivity.
  - apply (bool_decide_unpack _). vm_compute. exact I.
  - repeat apply Forall_cons_2; try apply Forall_nil_2; reflexivity.
  - discriminate.
  - exists g', r'. split; [exact Heq|]. split; [exact Hon|].
    assert (Hc : "b1"%string ∈ hands (Game.Players game_six)).
    { apply (bool_decide_unpack _). vm_compute. exact I. }
    specialize (Hin Hc). simpl in Hin. lia.
Defined.

(** X13. With an empty pool [Play] still returns normally: the error of
    its refill is dropped. On a session without duplicate cards whose hands
    are full, a play of a card some hand holds leaves that hand one card
    short, draws nothing, and a refill of the session it returns fails with
    [ErrTooFewPunchlines]. *)
Theorem Play_drops_refill_error (g : Game.t) (name : string) (card : Card)
    (r : Rand) (round : Round.t) :
  at_index (Game.Rounds g) (wrap (Game.RoundsRemaining g - 1)) = Some round ->
  NoDup (all_cards g) ->
  Forall hand_on_target (Game.Players g) ->
  Game.Punchlines g = [] ->
  card ∈ hands (Game.Players g) ->
  exists g',
    Play g name card r = Ok (g', r) /\
    Forall2 (rm_player card) (Game.Players g) (Game.Players g') /\
    total_deficit (Game.Players g') = 1%nat /\
    Game.Punchlines g' = [] /\
    dealPunchlines g' r = Ok (g', r, Some ErrTooFewPunchlines).
Proof.
  intros Hround Hnd Hon Hpool Hc.
  assert (Hndh : NoDup (hands (Game.Players g))).
  { unfold all_cards in Hnd. by apply NoDup_app in Hnd as (? & _ & _). }
  destruct (Play_spec g name card r round Hround)
    as (ps1 & ps' & pool' & r' & err & HF & Hdeal & _ & ->);
    [by apply NoDup_hands_at_most_once|].
  destruct (rm_players_deficit card _ _ Hndh Hon HF) as (_ & Hone & _).
  specialize (Hone Hc).
  destruct (deal_players_spec ps1 (Game.Punchlines g) r)
    as (ps2 & pool2 & r2 & err2 & Hdeal2 & _ & Herr).
  rewrite Hdeal in Hdeal2. simplify_eq.
  rewrite Hpool in *. simpl in Herr.
  destruct err2 as [e|]; [|destruct Herr as [_ Hl]; lia].
  destruct Herr as (-> & before & before' & p & rest & -> & _ & _ & Hl & Hshort).
  assert (Hstuck : deal_players (before ++ p :: rest) [] r
                   = Ok (before ++ p :: rest, [], r, Some ErrTooFewPunchlines)).
  { apply deal_players_stuck; [apply no_deficit_full; lia|simpl; lia]. }
  rewrite Hstuck in Hdeal. simplify_eq.
  eexists. split; [reflexivity|]. simpl.
  split; [done|]. split; [done|]. split; [done|].
  unfold dealPunchlines. simpl. rewrite Hstuck. done.
Qed.

Lemma Play_drops_refill_error_witness :
  exists g',
    Play game_dry "al" "a1" rand0 = Ok (g', rand0) /\
    dealPunchlines g' rand0 = Ok (g', rand0, Some ErrTooFewPunchlines).
Proof.
  destruct (Play_drops_refill_error game_dry "al" "a1" rand0 Round.zero)
    as (g' & Heq & _ & _ & _ & Hdeal).
  - reflexivity.
  - apply (bool_decide_unpack _). vm_compute. exact I.
  - repeat apply Forall_cons_2; try apply Forall_nil_2; reflexivity.
  - reflexivity.
  - apply (bool_decide_unpack _). vm_compute. exact I.
  - exists g'. split; [exact Heq|exact Hdeal].
Defined.

(** ** The scan of a hand that holds the card twice *)

Lemma rm_scan_skip (card : Card) (k : nat) :
  forall (todo j : nat) (arr : list Card) (n : nat),
    (j + k <= length arr)%nat ->
    (forall q x, (j <= q < j + k)%nat -> arr !! q = Some x -> x <> card) ->
    rm_scan card (k + todo) j arr n = rm_scan card todo (j + k) arr n.
Proof.
  induction k as [|k IH]; intros todo j arr n Hlen Hskip.
  - by rewrite Nat.add_0_r.
  - simpl. destruct (lookup_lt_is_Some_2 arr j) as [x Hx]; [lia|].
    rewrite Hx. rewrite decide_False by (apply (Hskip j); [lia|done]).
    rewrite IH; [f_equal; lia|lia|].
    intros q y Hq. apply Hskip. lia.
Qed.

(** Two copies, the second in last position: the first copy is overwritten
    by the last card, which is the second copy, and the hand shrinks; when
    the range reaches the old last position it reads the second copy in the
    backing array and stores beyond the shrunk hand. *)
Lemma rm_hand_second_copy (card : Card) (l1 l2 : list Card) :
  card ∉ l1 -> card ∉ l2 ->
  rm_hand card (l1 ++ card :: l2 ++ [card])
  = Panic (IndexOutOfRange OfHand (Z.of_nat (length l1 + length l2 + 1))
             (length l1 + length l2 + 1))
      (l1 ++ card :: l2).
Proof.
  intros H1 H2. unfold rm_hand.
  replace (length l1 + length l2 + 1)%nat with (S (length l1 + length l2)) by lia.
  set (arr := l1 ++ card :: l2 ++ [card]).
  set (m := (length l1 + length l2)%nat).
  assert (Harr : arr = (l1 ++ card :: l2) ++ [card]).
  { unfold arr. by rewrite <- app_assoc. }
  assert (Hm : length (l1 ++ card :: l2) = S m).
  { rewrite length_app. simpl. unfold m. lia. }
  assert (Hlen : length arr = S (S m)).
  { rewrite Harr, length_app, Hm. simpl. lia. }
  assert (Hfirst : arr !! length l1 = Some card).
  { unfold arr. by apply list_lookup_middle. }
  assert (Hlast : arr !! S m = Some card).
  { rewrite Harr. by apply list_lookup_middle. }
  assert (Hl1 : forall q x, (0 <= q < 0 + length l1)%nat -> arr !! q = Some x -> x <> card).
  { intros q x Hq Hx. unfold arr in Hx. rewrite lookup_app_l in Hx by lia.
    intros ->. apply H1. by eapply list_elem_of_lookup_2. }
  assert (Hl2 : forall q x, (S (length l1) <= q < S (length l1) + length l2)%nat ->
                  arr !! q = Some x -> x <> card).
  { intros q x Hq Hx. unfold arr in Hx. rewrite lookup_app_r in Hx by lia.
    replace (q - length l1)%nat with (S (q - S (length l1))) in Hx by lia.
    simpl in Hx. rewrite lookup_app_l in Hx by lia.
    intros ->. apply H2. by eapply list_elem_of_lookup_2. }
  destruct (lookup_lt_is_Some_2 arr m) as [lst Hlst]; [lia|].
  rewrite Hlen.
  replace (S (S m)) with (length l1 + S (length l2 + 1))%nat at 1 by (unfold m; lia).
  rewrite rm_scan_skip by (done || lia).
  change (rm_scan card (S (length l2 + 1)) (0 + length l1) arr (S (S m)))
    with (match arr !! length l1 with
          | None => Panic (IndexOutOfRange OfHand (Z.of_nat (length l1)) (length arr))
                      (arr, S (S m))
          | Some punchline =>
            if decide (punchline = card) then
              match arr !! S m with
              | None => Panic (IndexOutOfRange OfHand (Z.of_nat (S m)) (S (S m)))
                          (arr, S (S m))
              | Some lst =>
                if (length l1 <? S (S m))%nat
                then rm_scan card (length l2 + 1) (S (length l1))
                       (<[length l1 := lst]> arr) (S m)
                else Panic (IndexOutOfRange OfHand (Z.of_nat (length l1)) (S (S m)))
                       (arr, S (S m))
              end
            else rm_scan card (length l2 + 1) (S (length l1)) arr (S (S m))
          end).
  rewrite Hfirst, decide_True by done. rewrite Hlast.
  replace (length l1 <? S (S m))%nat with true
    by (symmetry; apply Nat.ltb_lt; unfold m; lia).
  rewrite list_insert_id by done.
  rewrite rm_scan_skip by (done || lia).
  replace (S (length l1) + length l2)%nat with (S m) by (unfold m; lia).
  simpl. rewrite Hlast, decide_True by done. rewrite Hlst.
  replace (S m <? S m)%nat with false by (symmetry; apply Nat.ltb_ge; lia).
  rewrite Harr, <- Hm. by rewrite take_app_length.
Qed.

Lemma rm_players_app_panic (card : Card) (before : list Player.t) (p : Player.t)
    (rest : list Player.t) (e : panic) (h : list Card) :
  Forall (fun q => at_most_once card (Player.Punchlines q)) before ->
  rm_hand card (Player.Punchlines p) = Panic e h ->
  exists before',
    Forall2 (rm_player card) before before' /\
    rm_players card (before ++ p :: rest)
    = Panic e (before' ++ Player.with_Punchlines p h :: rest).
Proof.
  intros Hone Hp. induction Hone as [|q before Hq _ IH]; simpl.
  - exists []. split; [constructor|]. by rewrite Hp.
  - destruct (rm_hand_spec card _ Hq) as (hq & Hhq & _).
    destruct IH as (before' & HF & ->). rewrite Hhq.
    exists (Player.with_Punchlines q hq :: before'). split; [|done].
    constructor; [|done]. by split.
Qed.

(** X14. [Play] panics in its removal loop whenever a hand holds the card
    twice with the second copy in last position (and nowhere else): the
    range over the hand runs to the old length while the hand has shrunk,
    so the store for the second copy is out of range. At the panic the card
    is already recorded in the round (and the phase switched if the map is
    complete), the hands before that one are scanned, that hand has lost
    its last position only, so it still holds the card, and nothing is
    refilled. *)
Theorem Play_panics_on_second_copy (g : Game.t) (name : string) (card : Card)
    (r : Rand) (round : Round.t) (before : list Player.t) (p : Player.t)
    (rest : list Player.t) (l1 l2 : list Card) :
  at_index (Game.Rounds g) (wrap (Game.RoundsRemaining g - 1)) = Some round ->
  Game.Players g = before ++ p :: rest ->
  Forall (fun q => at_most_once card (Player.Punchlines q)) before ->
  Player.Punchlines p = l1 ++ card :: l2 ++ [card] ->
  card ∉ l1 -> card ∉ l2 ->
  exists before',
    Forall2 (rm_player card) before before' /\
    Play g name card r
    = Panic (IndexOutOfRange OfHand (Z.of_nat (length l1 + length l2 + 1))
               (length l1 + length l2 + 1))
        (Game.with_Players (record_play g round name card)
           (before' ++ Player.with_Punchlines p (l1 ++ card :: l2) :: rest), r).
Proof.
  intros Hround Hps Hone Hhand H1 H2.
  destruct (rm_players_app_panic card before p rest
              (IndexOutOfRange OfHand (Z.of_nat (length l1 + length l2 + 1))
                 (length l1 + length l2 + 1))
              (l1 ++ card :: l2) Hone)
    as (before' & HF & Hrm).
  { rewrite Hhand. by apply rm_hand_second_copy. }
  exists before'. split; [done|].
  unfold Play. rewrite Hround, record_play_Players, Hps, Hrm. done.
Qed.

Lemma Play_panics_on_second_copy_witness :
  Play game_twice "al" "x" rand0
  = Panic (IndexOutOfRange OfHand 2 2)
      (Game.with_Players (record_play game_twice Round.zero "al" "x")
         [Player.mk "al" ["x"; "y"]%string], rand0).
Proof.
  destruct (Play_panics_on_second_copy game_twice "al" "x" rand0 Round.zero
              [] (Player.mk "al" ["x"; "y"; "x"]%string) [] [] ["y"%string])
    as (before' & HF & Heq).
  - reflexivity.
  - reflexivity.
  - constructor.
  - reflexivity.
  - apply not_elem_of_nil.
  - apply (bool_decide_unpack _). vm_compute. exact I.
  - apply Forall2_nil_inv_l in HF. subst before'. exact Heq.
Defined.

(** ** createRounds outside its contract *)

(** X15. A round count that [make] refuses is not caught by the check on
    the number of setups: with a negative count, or with a count beyond the
    allocation limit that the setups cover, [createRounds] panics in [make],
    before any random number is drawn and with the session untouched. *)
Theorem createRounds_bad_count_panics (fuel : nat) (g : Game.t)
    (setups : list Card) (r : Rand) :
  in_int (Game.RoundsRemaining g * 2) ->
  Game.RoundsRemaining g < 0 \/
  (make_Rounds_max < Game.RoundsRemaining g /\
   Game.RoundsRemaining g * 2 <= Z.of_nat (length setups)) ->
  createRounds fuel g setups r = Some (Panic MakeLenOutOfRange (g, r, None)).
Proof.
  intros Hint Hbad. unfold createRounds. rewrite (wrap_id _ Hint).
  replace (Z.of_nat (length setups) <? Game.RoundsRemaining g * 2) with false
    by (symmetry; apply Z.ltb_ge; lia).
  unfold make_Rounds.
  destruct (Z.ltb_spec (Game.RoundsRemaining g) 0) as [Hneg|Hpos]; [done|].
  destruct (Z.ltb_spec make_Rounds_max (Game.RoundsRemaining g)) as [Hbig|Hsmall];
    [done|lia].
Qed.

Lemma createRounds_bad_count_panics_witness :
  createRounds 0 game_negative six_setups rand0
  = Some (Panic MakeLenOutOfRange (game_negative, rand0, None)).
Proof.
  apply createRounds_bad_count_panics.
  - split; vm_compute; discriminate.
  - left. reflexivity.
Defined.

Lemma draws_S (r : Rand) (n fuel : nat) :
  draws r n (S fuel)
  = (raw r (pos r) mod n)%nat :: draws (mkRand (raw r) (S (pos r))) n fuel.
Proof. reflexivity. Qed.

(** The loop does not end while the draws made so far hold fewer new
    indices than it still has to accept. *)
Lemma createRounds_loop_starved (setups : list Card) (needed fuel : nat) :
  forall (i : nat) (setupsMap : gmap nat Card) (rounds : list Round.t) (r : Rand),
    (size ((list_to_set (draws r (length setups) fuel) : gset nat)
           ∖ dom setupsMap) < needed - i)%nat ->
    match createRounds_loop fuel setups (Z.of_nat needed) i setupsMap rounds r with
    | Some (Ok _) => False
    | _ => True
    end.
Proof.
  induction fuel as [|fuel IH]; intros i setupsMap rounds r Hfew;
    rewrite createRounds_loop_eq;
    (destruct (Z.leb_spec (Z.of_nat needed) (Z.of_nat i)) as [Hdone|Hmore];
     [lia|]); [done|].
  destruct (Intn r (length setups)) as [[index r']|] eqn:Hintn; [|done].
  assert (Hhead : index = (raw r (pos r) mod length setups)%nat
                  /\ r' = mkRand (raw r) (S (pos r))).
  { destruct (length setups); [done|]. simpl in Hintn. by simplify_eq. }
  destruct Hhead as [Hindex Hr'].
  rewrite draws_S, <- Hindex, <- Hr' in Hfew. simpl in Hfew.
  destruct (setupsMap !! index) as [c0|] eqn:Hseen.
  - apply IH. eapply Nat.le_lt_trans; [|exact Hfew].
    apply subseteq_size. set_solver.
  - destruct (setups !! index) as [c|]; [|done].
    destruct (rounds !! (i / 2)%nat) as [round|]; [|done].
    apply IH. rewrite dom_insert_L.
    assert (Hnew : index ∉ dom setupsMap) by (by apply not_elem_of_dom).
    set (D := (list_to_set (draws r' (length setups) fuel) : gset nat)) in *.
    assert (Hsplit : ({[index]} ∪ D) ∖ dom setupsMap
                     = {[index]} ∪ (D ∖ ({[index]} ∪ dom setupsMap))).
    { apply set_eq. intros x. rewrite !elem_of_union, !elem_of_difference,
        !elem_of_union, !elem_of_singleton.
      destruct (decide (x = index)) as [->|Hne]; [tauto|tauto]. }
    rewrite Hsplit, size_union, size_singleton in Hfew by set_solver.
    lia.
Qed.

Lemma draws_repeat (n : nat) (c : nat) (fuel : nat) :
  forall r : Rand,
    (forall k, (raw r (pos r + k) mod n)%nat = c) ->
    (list_to_set (draws r n fuel) : gset nat) ⊆ {[c]}.
Proof.
  induction fuel as [|fuel IH]; intros r Hrep; [set_solver|].
  rewrite draws_S. simpl.
  assert (Hhead : (raw r (pos r) mod n)%nat = c).
  { specialize (Hrep O). by rewrite Nat.add_0_r in Hrep. }
  assert (Htail : (list_to_set (draws (mkRand (raw r) (S (pos r))) n fuel) : gset nat)
                  ⊆ {[c]}).
  { apply IH. intros k. simpl. specialize (Hrep (S k)).
    by rewrite Nat.add_succ_r in Hrep. }
  set_solver.
Qed.

Lemma createRounds_starved (fuel : nat) (g : Game.t) (setups : list Card)
    (r : Rand) :
  0 <= Game.RoundsRemaining g <= make_Rounds_max ->
  Game.RoundsRemaining g * 2 <= Z.of_nat (length setups) ->
  (size (list_to_set (draws r (length setups) fuel) : gset nat)
   < Z.to_nat (Game.RoundsRemaining g * 2))%nat ->
  createRounds fuel g setups r = None.
Proof.
  intros Hin Hcover Hfew.
  destruct (createRounds fuel g setups r) as [res|] eqn:Hres; [|done].
  exfalso.
  destruct (createRounds_spec fuel g setups r Hin) as [_ Hok].
  destruct (Hok Hcover) as [_ Hshape].
  destruct (Hshape res Hres) as (rounds & r' & -> & _).
  revert Hres. unfold createRounds.
  destruct Hin as [Hlo Hhi]. pose proof Hhi as Hhi'.
  rewrite make_Rounds_max_val in Hhi'.
  rewrite wrap_id by (unfold in_int, int_min, int_max; lia).
  replace (Z.of_nat (length setups) <? Game.RoundsRemaining g * 2) with false
    by (symmetry; apply Z.ltb_ge; lia).
  unfold make_Rounds.
  replace (Game.RoundsRemaining g <? 0) with false
    by (symmetry; apply Z.ltb_ge; lia).
  replace (make_Rounds_max <? Game.RoundsRemaining g) with false
    by (symmetry; apply Z.ltb_ge; lia).
  simpl orb. cbv iota.
  pose proof (createRounds_loop_starved setups
                (Z.to_nat (Game.RoundsRemaining g * 2)) fuel O ∅
                (replicate (Z.to_nat (Game.RoundsRemaining g)) Round.zero) r)
    as Hloop.
  rewrite Z2Nat.id in Hloop by lia.
  rewrite dom_empty_L, difference_empty_L, Nat.sub_0_r in Hloop.
  specialize (Hloop Hfew).
  destruct (createRounds_loop fuel setups (Game.RoundsRemaining g * 2) 0 ∅ _ r)
    as [[[rounds' r'']|e [rounds' r'']]|]; [done|discriminate|discriminate].
Qed.

(** X16. [createRounds] does not return before the random source has
    drawn [r*2] different indices. For a round count [make] accepts and
    setups that cover it: as long as the draws made hold fewer different
    indices than that, the loop is still running; and with a source that
    keeps drawing the same index the call never returns once a round is to
    be built, however many draws it is given. *)
Theorem createRounds_waits_for_new_indices (g : Game.t) (setups : list Card)
    (r : Rand) :
  0 <= Game.RoundsRemaining g <= make_Rounds_max ->
  Game.RoundsRemaining g * 2 <= Z.of_nat (length setups) ->
  (forall fuel,
     (size (list_to_set (draws r (length setups) fuel) : gset nat)
      < Z.to_nat (Game.RoundsRemaining g * 2))%nat ->
     createRounds fuel g setups r = None) /\
  (1 <= Game.RoundsRemaining g ->
   (forall k, (raw r (pos r + k) mod length setups
               = raw r (pos r) mod length setups)%nat) ->
   forall fuel, createRounds fuel g setups r = None).
Proof.
  intros Hin Hcover. split.
  - intros fuel. by apply createRounds_starved.
  - intros Hone Hrep fuel. apply createRounds_starved; try done.
    eapply Nat.le_lt_trans.
    + apply subseteq_size. apply draws_repeat. exact Hrep.
    + rewrite size_singleton. lia.
Qed.

Lemma createRounds_waits_for_new_indices_witness :
  createRounds 100 game_one twin_setups rand_zero = None.
Proof.
  destruct (createRounds_waits_for_new_indices game_one twin_setups rand_zero)
    as [_ Hrep].
  - split; vm_compute; discriminate.
  - vm_compute. discriminate.
  - apply Hrep; [vm_compute; discriminate|]. intros k. reflexivity.
Defined.

(** ** The card source under every threshold *)

Section CardSourceProps.
Variable TrimSpace : string -> string.

Lemma read_cards_monotone (rows : list (list string)) (ending : option error)
    (c1 c2 : string) (t1 t2 : Z) :
  ranks !! c1 = Some t1 -> ranks !! c2 = Some t2 -> t1 <= t2 ->
  forall acc1 acc2,
    acc1 `sublist_of` acc2 ->
    (read_cards TrimSpace rows ending c1 acc1).2
    = (read_cards TrimSpace rows ending c2 acc2).2 /\
    (read_cards TrimSpace rows ending c1 acc1).1
    `sublist_of` (read_cards TrimSpace rows ending c2 acc2).1.
Proof.
  intros H1 H2 Hle. induction rows as [|line rows IH]; intros acc1 acc2 Hsub; simpl.
  - by destruct ending.
  - destruct line as [|text [|rating [|? ?]]]; try done.
    destruct (ranks !! rating) as [k|] eqn:Hk.
    + rewrite (isCleanEnough_on_scale rating c1 k t1 Hk H1),
        (isCleanEnough_on_scale rating c2 k t2 Hk H2).
      destruct (Z.leb_spec k t1) as [Hk1|Hk1];
        destruct (Z.leb_spec k t2) as [Hk2|Hk2]; try lia; apply IH.
      * by apply sublist_app.
      * by apply sublist_inserts_r.
      * done.
    + by rewrite !(isCleanEnough_off_scale rating _ Hk).
Qed.

(** X17. Thresholds are monotone. For two thresholds on the scale, the
    lower one first: loading fails under one exactly when it fails under the
    other, with the same error, and the cards loaded under the lower
    threshold are, in order, among those loaded under the higher one. *)
Theorem getCardsCsv_threshold_monotone (resp : error + csvReader)
    (c1 c2 : string) (t1 t2 : Z) :
  ranks !! c1 = Some t1 -> ranks !! c2 = Some t2 -> t1 <= t2 ->
  (getCardsCsv TrimSpace resp c1).2 = (getCardsCsv TrimSpace resp c2).2 /\
  (getCardsCsv TrimSpace resp c1).1 `sublist_of` (getCardsCsv TrimSpace resp c2).1.
Proof.
  intros H1 H2 Hle. destruct resp as [e|reader]; simpl; [done|].
  by apply (read_cards_monotone _ _ c1 c2 t1 t2).
Qed.

(** X18. A threshold that is not on the scale is only noticed through a
    record: every source with a record fails with [ErrMalformedCSV],
    whatever the record is and however the reading would have ended, while
    a source without records loads as the empty list of cards, without
    error if the reader ends normally. *)
Theorem getCardsCsv_unknown_threshold (reader : csvReader) (cleanliness : string) :
  ranks !! cleanliness = None ->
  getCardsCsv TrimSpace (inr reader) cleanliness
  = match records reader with
    | [] => ([], ending reader)
    | _ :: _ => ([], Some ErrMalformedCSV)
    end.
Proof.
  intros Hoff. simpl. destruct (records reader) as [|line rows]; simpl.
  - by destruct (ending reader).
  - destruct line as [|text [|rating [|? ?]]]; try done.
    unfold isCleanEnough. rewrite Hoff. by destruct (ranks !! rating).
Qed.

Lemma read_cards_results (rows : list (list string)) (ending : option error)
    (cleanliness : string) :
  forall acc,
    match read_cards TrimSpace rows ending cleanliness acc with
    | (cards, None) =>
      ending = None /\
      exists more,
        cards = acc ++ more /\
        (length more <= length rows)%nat /\
        Forall (fun c => exists line,
                  line ∈ rows /\ length line = 2%nat /\
                  c = TrimSpace (row_text line)) more
    | (cards, Some e) =>
      cards = [] /\ (ending = Some e \/ (e = ErrMalformedCSV /\ rows <> []))
    end.
Proof.
  induction rows as [|line rows IH]; intros acc; simpl.
  - destruct ending as [e|]; [by split; [|left]|].
    split; [done|]. exists []. by rewrite app_nil_r.
  - assert (Hbad : ([] : list Card) = [] /\
                   (ending = Some ErrMalformedCSV \/
                    ErrMalformedCSV = ErrMalformedCSV /\ line :: rows <> []))
      by (split; [done|by right]).
    destruct line as [|text [|rating [|? ?]]]; try exact Hbad.
    destruct (isCleanEnough rating cleanliness) as [ok [e|]] eqn:Hclean.
    { unfold isCleanEnough in Hclean. repeat case_match; by simplify_eq. }
    assert (Hlift : forall acc',
              (acc' = acc \/ acc' = acc ++ [TrimSpace text]) ->
              match read_cards TrimSpace rows ending cleanliness acc' with
              | (cards, None) =>
                ending = None /\
                exists more,
                  cards = acc ++ more /\
                  (length more <= S (length rows))%nat /\
                  Forall (fun c => exists line,
                            line ∈ [text; rating] :: rows /\ length line = 2%nat /\
                            c = TrimSpace (row_text line)) more
              | (cards, Some e) =>
                cards = [] /\
                (ending = Some e \/
                 (e = ErrMalformedCSV /\ [text; rating] :: rows <> []))
              end).
    { intros acc' Hacc. specialize (IH acc').
      destruct (read_cards TrimSpace rows ending cleanliness acc') as [cards [e|]].
      - destruct IH as [-> [He|[-> _]]]; (split; [done|]); [by left|by right].
      - destruct IH as (-> & more & -> & Hlen & Hall). split; [done|].
        assert (Hall' : Forall (fun c => exists line,
                            line ∈ [text; rating] :: rows /\ length line = 2%nat /\
                            c = TrimSpace (row_text line)) more).
        { eapply Forall_impl; [exact Hall|].
          intros c (line & Hin & Hl & Hc). exists line. split; [by right|done]. }
        destruct Hacc as [->| ->].
        + exists more. split; [done|]. split; [lia|done].
        + exists (TrimSpace text :: more). split; [by rewrite <- app_assoc|].
          split; [simpl; lia|]. constructor; [|done].
          exists [text; rating]. split; [by left|done]. }
    destruct ok; apply Hlift; [by right|by left].
Qed.

(** X19. What loading can return. An error never comes with cards, and it
    is the error of the object store, the error the reader ended on, or
    [ErrMalformedCSV] raised on a record. Without error the store answered,
    the reader ended normally, and each card is the trimmed first column of
    a two-column record of the source, which yields no more cards than it
    has records. *)
Theorem getCardsCsv_results (resp : error + csvReader) (cleanliness : string) :
  match getCardsCsv TrimSpace resp cleanliness with
  | (cards, None) =>
    exists reader,
      resp = inr reader /\ ending reader = None /\
      (length cards <= length (records reader))%nat /\
      Forall (fun c => exists line,
                line ∈ records reader /\ length line = 2%nat /\
                c = TrimSpace (row_text line)) cards
  | (cards, Some e) =>
    cards = [] /\
    (resp = inl e \/
     exists reader,
       resp = inr reader /\
       (ending reader = Some e \/
        (e = ErrMalformedCSV /\ records reader <> [])))
  end.
Proof.
  destruct resp as [e|reader]; simpl; [split; [done|by left]|].
  pose proof (read_cards_results (records reader) (ending reader) cleanliness [])
    as H.
  destruct (read_cards TrimSpace (records reader) (ending reader) cleanliness [])
    as [cards [e|]].
  - destruct H as [-> H]. split; [done|]. right. by exists reader.
  - destruct H as (Hend & more & -> & Hlen & Hall). by exists reader.
Qed.
End CardSourceProps.

Lemma getCardsCsv_threshold_monotone_witness :
  (getCardsCsv (fun text => text) (inr reader_test) "G").1
  `sublist_of` (getCardsCsv (fun text => text) (inr reader_test) "R").1.
Proof.
  apply (getCardsCsv_threshold_monotone (fun text => text) (inr reader_test)
           "G" "R" 0 3); [reflexivity|reflexivity|lia].
Defined.

Lemma getCardsCsv_unknown_threshold_witness :
  getCardsCsv (fun text => text) (inr reader_test) "NC-17"
  = ([], Some ErrMalformedCSV) /\
  getCardsCsv (fun text => text) (inr reader_empty) "NC-17" = ([], None).
Proof.
  split.
  - apply (getCardsCsv_unknown_threshold (fun text => text) reader_test "NC-17").
    reflexivity.
  - apply (getCardsCsv_unknown_threshold (fun text => text) reader_empty "NC-17").
    reflexivity.
Defined.

(** ** A whole round *)

Lemma Play_round_step (g : Game.t) (name : string) (card : Card) (r : Rand)
    (round : Round.t) :
  at_index (Game.Rounds g) (wrap (Game.RoundsRemaining g - 1)) = Some round ->
  NoDup (all_cards g) ->
  Forall hand_on_target (Game.Players g) ->
  Game.Punchlines g <> [] ->
  exists g' r',
    Play g name card r = Ok (g', r') /\
    at_index (Game.Rounds g') (wrap (Game.RoundsRemaining g' - 1))
    = Some (Round.with_Plays round (map_store (Round.Plays round) name card)) /\
    Game.RoundsRemaining g' = Game.RoundsRemaining g /\
    length (Game.Players g') = length (Game.Players g) /\
    NoDup (all_cards g') /\
    Forall hand_on_target (Game.Players g') /\
    (length (Game.Punchlines g) <= S (length (Game.Punchlines g')))%nat /\
    Game.CurrentAction g'
    = (if (size ({[name]} ∪ entered (Round.Plays round))
           =? length (Game.Players g))%nat
       then VOTE else Game.CurrentAction g).
Proof.
  intros Hround Hnd Hon Hpool.
  destruct (Play_step g name card r round Hround Hnd)
    as (g1 & r1 & Heq & Hround1 & HRR & Hlen & Hnd1 & HCA).
  destruct (Play_full_hands g name card r round Hround Hnd Hon Hpool)
    as (g2 & r2 & Heq2 & Hon2 & Hin & Hnot).
  rewrite Heq in Heq2. simplify_eq.
  exists g2, r2. repeat split; try done.
  destruct (decide (card ∈ hands (Game.Players g))) as [Hc|Hc].
  - rewrite <- (Hin Hc). lia.
  - destruct (Hnot Hc) as (_ & -> & _). lia.
Qed.

Lemma names_of_cons (name : string) (card : Card) (plays : list (string * Card)) :
  names_of ((name, card) :: plays) = {[name]} ∪ names_of plays.
Proof. reflexivity. Qed.

Lemma elem_of_names_of (name : string) (plays : list (string * Card)) :
  name ∈ names_of plays <-> name ∈ map fst plays.
Proof. unfold names_of. apply elem_of_list_to_set. Qed.

Lemma play_all_round (plays : list (string * Card)) :
  forall (g : Game.t) (r : Rand) (round : Round.t),
    at_index (Game.Rounds g) (wrap (Game.RoundsRemaining g - 1)) = Some round ->
    NoDup (all_cards g) ->
    Forall hand_on_target (Game.Players g) ->
    (length plays <= length (Game.Punchlines g))%nat ->
    NoDup (map fst plays) ->
    names_of plays ## entered (Round.Plays round) ->
    (size (entered (Round.Plays round)) + length plays
     = length (Game.Players g))%nat ->
    plays <> [] ->
    exists g' r' round',
      play_all plays g r = Ok (g', r') /\
      at_index (Game.Rounds g') (wrap (Game.RoundsRemaining g' - 1)) = Some round' /\
      Round.Votes round' = Round.Votes round /\
      Round.Setup round' = Round.Setup round /\
      entered (Round.Plays round') = entered (Round.Plays round) ∪ names_of plays /\
      Game.RoundsRemaining g' = Game.RoundsRemaining g /\
      length (Game.Rounds g') = length (Game.Rounds g) /\
      length (Game.Players g') = length (Game.Players g) /\
      NoDup (all_cards g') /\
      Forall hand_on_target (Game.Players g') /\
      (length (Game.Punchlines g)
       <= length (Game.Punchlines g') + length plays)%nat /\
      Game.CurrentAction g' = VOTE.
Proof.
  induction plays as [|[name card] plays IH];
    intros g r round Hround Hnd Hon Hpool Hnames Hdisj Hsize Hne; [done|].
  simpl in Hpool, Hsize, Hnames. rewrite names_of_cons in Hdisj.
  apply NoDup_cons in Hnames as [Hfresh Hnames].
  destruct (Play_round_step g name card r round Hround Hnd Hon)
    as (g1 & r1 & Heq & Hround1 & HRR & Hlen & Hnd1 & Hon1 & Hpool1 & HCA).
  { destruct (Game.Punchlines g); [simpl in Hpool; lia|done]. }
  assert (Hlen1 : length (Game.Rounds g1) = length (Game.Rounds g)).
  { destruct (Play_Rounds g name card r round Hround)
      as (g2 & r2 & Heq2 & HR & _).
    { apply NoDup_hands_at_most_once. unfold all_cards in Hnd.
      by apply NoDup_app in Hnd as (? & _ & _). }
    rewrite Heq in Heq2. simplify_eq. by rewrite HR, length_insert. }
  assert (Hsz : size ({[name]} ∪ entered (Round.Plays round))
                = S (size (entered (Round.Plays round)))).
  { rewrite size_union by set_solver. by rewrite size_singleton. }
  simpl. rewrite Heq.
  destruct plays as [|play plays].
  - simpl in *. exists g1, r1. eexists. split; [done|]. split; [exact Hround1|].
    simpl. rewrite entered_store.
    do 2 (split; [done|]). split; [unfold names_of; simpl; set_solver|].
    do 5 (split; [done|]). split; [lia|].
    rewrite HCA, Hsz.
    by replace (S (size (entered (Round.Plays round))) =? length (Game.Players g))%nat
      with true by (symmetry; apply Nat.eqb_eq; lia).
  - destruct (IH g1 r1 _ Hround1 Hnd1 Hon1)
      as (g' & r' & round' & Heq' & Hround' & HV & HS & Hent & HRR' & HlenR & Hlen'
          & Hnd' & Hon' & Hpool' & HCA'); try done.
    + simpl in *. lia.
    + simpl. rewrite entered_store.
      assert (name ∉ names_of (play :: plays))
        by (by rewrite elem_of_names_of).
      set_solver.
    + simpl. rewrite entered_store, Hsz, Hlen. simpl in *. lia.
    + exists g', r', round'. split; [done|]. split; [done|].
      simpl in HV, HS, Hent. rewrite entered_store in Hent.
      do 2 (split; [done|]).
      split; [rewrite Hent, names_of_cons; set_solver|].
      do 3 (split; [congruence|]). do 2 (split; [done|]).
      split; [simpl in *; lia|done].
Qed.

Lemma Vote_full_hands (g : Game.t) (name : string) (card : Card) (r : Rand)
    (round : Round.t) :
  at_index (Game.Rounds g) (wrap (Game.RoundsRemaining g - 1)) = Some round ->
  Forall hand_full (Game.Players g) ->
  let votes := map_store (Round.Votes round) name card in
  let g1 := Game.with_Rounds g
              (<[Z.to_nat (wrap (Game.RoundsRemaining g - 1)) :=
                   Round.with_Votes round votes]> (Game.Rounds g)) in
  Vote g name card r
  = Ok (if (map_len votes =? length (Game.Players g))%nat
        then Game.with_CurrentAction
               (Game.with_RoundsRemaining g1 (wrap (Game.RoundsRemaining g - 1)))
               PLAY
        else g1, r).
Proof.
  intros Hround Hfull votes g1.
  destruct (Vote_spec g name card r round Hround) as [Hne Heq].
  fold votes in Hne, Heq. fold g1 in Hne, Heq.
  destruct (Nat.eqb_spec (map_len votes) (length (Game.Players g))) as [Hlen|Hlen].
  - destruct (Heq Hlen) as (ps' & pool' & r' & err & Hdeal & _ & ->).
    rewrite deal_players_full in Hdeal by done. simplify_eq.
    by destruct g.
  - by apply Hne.
Qed.

Lemma vote_all_round (votes : list (string * Card)) :
  forall (g : Game.t) (r : Rand) (round : Round.t),
    at_index (Game.Rounds g) (wrap (Game.RoundsRemaining g - 1)) = Some round ->
    Forall hand_full (Game.Players g) ->
    NoDup (map fst votes) ->
    names_of votes ## entered (Round.Votes round) ->
    (size (entered (Round.Votes round)) + length votes
     = length (Game.Players g))%nat ->
    votes <> [] ->
    exists g' round',
      vote_all votes g r = Ok (g', r) /\
      at_index (Game.Rounds g') (wrap (Game.RoundsRemaining g - 1)) = Some round' /\
      Round.Plays round' = Round.Plays round /\
      Round.Setup round' = Round.Setup round /\
      entered (Round.Votes round') = entered (Round.Votes round) ∪ names_of votes /\
      Game.RoundsRemaining g' = wrap (Game.RoundsRemaining g - 1) /\
      length (Game.Rounds g') = length (Game.Rounds g) /\
      Game.Players g' = Game.Players g /\
      Game.Punchlines g' = Game.Punchlines g /\
      Game.CurrentAction g' = PLAY.
Proof.
  induction votes as [|[name card] votes IH];
    intros g r round Hround Hfull Hnames Hdisj Hsize Hne; [done|].
  simpl in Hsize, Hnames. rewrite names_of_cons in Hdisj.
  apply NoDup_cons in Hnames as [Hfresh Hnames].
  assert (Hsz : map_len (map_store (Round.Votes round) name card)
                = S (size (entered (Round.Votes round)))).
  { rewrite map_len_store, size_union by set_solver. by rewrite size_singleton. }
  simpl. rewrite (Vote_full_hands g name card r round Hround Hfull). rewrite Hsz.
  pose proof (at_index_insert _ _ _
                (Round.with_Votes round (map_store (Round.Votes round) name card))
                Hround) as Hround1.
  destruct votes as [|vote votes].
  - simpl in Hsize.
    replace (S (size (entered (Round.Votes round))) =? length (Game.Players g))%nat
      with true by (symmetry; apply Nat.eqb_eq; lia).
    eexists _, _. split; [reflexivity|]. simpl. split; [exact Hround1|].
    simpl. rewrite entered_store, length_insert.
    do 2 (split; [done|]). split; [unfold names_of; simpl; set_solver|].
    by repeat split.
  - replace (S (size (entered (Round.Votes round))) =? length (Game.Players g))%nat
      with false by (symmetry; apply Nat.eqb_neq; simpl in Hsize; lia).
    set (g1 := Game.with_Rounds g _).
    destruct (IH g1 r _ Hround1 Hfull)
      as (g' & round' & Heq' & Hround' & HP & HS & Hent & HRR' & HlenR & Hps & Hpool
          & HCA'); try done.
    + simpl. rewrite entered_store.
      assert (name ∉ names_of (vote :: votes))
        by (by rewrite elem_of_names_of).
      set_solver.
    + simpl. rewrite entered_store, size_union by set_solver.
      rewrite size_singleton. simpl in Hsize. simpl. lia.
    + exists g', round'. split; [done|]. split; [done|].
      simpl in HP, HS, Hent, HRR', HlenR, Hps, Hpool.
      rewrite entered_store in Hent. rewrite length_insert in HlenR.
      do 2 (split; [done|]).
      split; [rewrite Hent, names_of_cons; set_solver|].
      by repeat split.
Qed.

(** X20. A whole round. In a session without duplicate cards whose hands
    are full, whose pool holds a card for each player and whose current
    round is fresh, let every player play once and then every player vote
    once (the names pairwise different, as many as there are players).
    The plays run to the end and leave the phase at [VOTE]; the votes run
    to the end, draw nothing, and leave the phase at [PLAY] with the
    round counter decremented. The round then holds the plays and votes of
    exactly those names, under its old setup; every hand is full again, no
    card is duplicated, and the pool has lost one card a player at most. *)
Theorem round_cycle (g : Game.t) (r : Rand) (round : Round.t)
    (plays votes : list (string * Card)) :
  at_index (Game.Rounds g) (wrap (Game.RoundsRemaining g - 1)) = Some round ->
  Round.Plays round = None -> Round.Votes round = None ->
  NoDup (all_cards g) ->
  Forall hand_on_target (Game.Players g) ->
  (length (Game.Players g) <= length (Game.Punchlines g))%nat ->
  (0 < length (Game.Players g))%nat ->
  NoDup (map fst plays) -> length plays = length (Game.Players g) ->
  NoDup (map fst votes) -> length votes = length (Game.Players g) ->
  exists g1 r1 g2 round2,
    play_all plays g r = Ok (g1, r1) /\
    Game.CurrentAction g1 = VOTE /\
    vote_all votes g1 r1 = Ok (g2, r1) /\
    Game.CurrentAction g2 = PLAY /\
    Game.RoundsRemaining g2 = wrap (Game.RoundsRemaining g - 1) /\
    at_index (Game.Rounds g2) (wrap (Game.RoundsRemaining g - 1)) = Some round2 /\
    Round.Setup round2 = Round.Setup round /\
    entered (Round.Plays round2) = names_of plays /\
    entered (Round.Votes round2) = names_of votes /\
    length (Game.Rounds g2) = length (Game.Rounds g) /\
    length (Game.Players g2) = length (Game.Players g) /\
    Forall hand_on_target (Game.Players g2) /\
    NoDup (all_cards g2) /\
    (length (Game.Punchlines g)
     <= length (Game.Punchlines g2) + length (Game.Players g))%nat.
Proof.
  intros Hround HP HV Hnd Hon Hpool Hpos Hpn Hpl Hvn Hvl.
  destruct (play_all_round plays g r round Hround Hnd Hon)
    as (g1 & r1 & round1 & Heq1 & Hround1 & HV1 & HS1 & Hent1 & HRR1 & HlenR1
        & Hlen1 & Hnd1 & Hon1 & Hpool1 & HCA1); try done.
  - lia.
  - rewrite HP. unfold entered. simpl. rewrite dom_empty_L. set_solver.
  - rewrite HP. unfold entered. simpl. rewrite dom_empty_L, size_empty. lia.
  - destruct plays; [simpl in Hpl; lia|done].
  - destruct (vote_all_round votes g1 r1 round1)
      as (g2 & round2 & Heq2 & Hround2 & HP2 & HS2 & Hent2 & HRR2 & HlenR2 & Hps2
          & Hpool2 & HCA2); try done.
    + by apply on_target_full.
    + rewrite HV1, HV. unfold entered. simpl. rewrite dom_empty_L. set_solver.
    + rewrite HV1, HV. unfold entered. simpl. rewrite dom_empty_L, size_empty. lia.
    + destruct votes; [simpl in Hvl; lia|done].
    + exists g1, r1, g2, round2.
      split; [exact Heq1|]. split; [exact HCA1|]. split; [exact Heq2|].
      split; [exact HCA2|]. split; [by rewrite HRR2, HRR1|].
      split; [by rewrite <- HRR1|]. split; [congruence|].
      split.
      { rewrite HP2, Hent1, HP. unfold entered at 1. simpl.
        rewrite dom_empty_L. set_solver. }
      split.
      { rewrite Hent2, HV1, HV. unfold entered at 1. simpl.
        rewrite dom_empty_L. set_solver. }
      split; [congruence|]. split; [by rewrite Hps2|].
      split; [by rewrite Hps2|].
      split; [unfold all_cards; by rewrite Hps2, Hpool2|].
      rewrite Hpool2. lia.
Qed.

Lemma round_cycle_witness :
  exists g1 r1 g2,
    play_all [("al", "a1"); ("bob", "b1")]%string game_six rand0 = Ok (g1, r1) /\
    vote_all [("al", "b1"); ("bob", "b1")]%string g1 r1 = Ok (g2, r1) /\
    Game.CurrentAction g2 = PLAY /\
    Game.RoundsRemaining g2 = 0 /\
    Forall hand_on_target (Game.Players g2).
Proof.
  destruct (round_cycle game_six rand0 Round.zero
              [("al", "a1"); ("bob", "b1")]%string
              [("al", "b1"); ("bob", "b1")]%string)
    as (g1 & r1 & g2 & round2 & Heq1 & _ & Heq2 & HCA & HRR & _ & _ & _ & _ & _ & _
        & Hon & _).
  - reflexivity.
  - reflexivity.
  - reflexivity.
  - apply (bool_decide_unpack _). vm_compute. exact I.
  - repeat apply Forall_cons_2; try apply Forall_nil_2; reflexivity.
  - simpl. lia.
  - simpl. lia.
  - apply (bool_decide_unpack _). vm_compute. exact I.
  - reflexivity.
  - apply (bool_decide_unpack _). vm_compute. exact I.
  - reflexivity.
  - exists g1, r1, g2. split; [exact Heq1|]. split; [exact Heq2|].
    split; [exact HCA|]. split; [exact HRR|exact Hon].
Defined.
